(** * The directory-tree walker of the scanner (scanner/walk_dir_tree.go)

    A shallow embedding of [walkDirTree], [walkFolder], [loadDir],
    [isDirOrSymlinkToDir], [isDirIgnored] and [isDirReadable].

    The walker talks to the outside world only through the operating system
    ([os.Stat], [ioutil.ReadDir]), the [utils] predicates, the logger and the
    result channel.  Every such call is recorded as an [event] in a trace, so
    that statements about what the walker does and does not call can be made.
    The file system is an oracle that does not change while the walk runs.
    The result channel is the sequence of sends and the close that the walker
    performs on it; the goroutine that receives is not part of the model.
    [walkFolder] recurses over the file system, so it takes fuel, and a call
    that has not returned when the fuel is used up ends in [OutOfFuel]. *)

From Stdlib Require Import List String Ascii ZArith Bool Arith Lia.
Import ListNotations.
Local Open Scope string_scope.
Local Open Scope list_scope.

(** ** Data *)

(** Go's [error] values; [nil] is [None] in an [option error]. *)
Inductive error : Type :=
| ENOENT
| EACCES
| ENOTDIR
| EIO.

(** [time.Time] as an instant on the integer line; the zero value of a
    [time.Time] is the instant [0]. *)
Definition Time : Type := Z.

Definition After (t u : Time) : bool := (u <? t)%Z.

Module os.

(** [os.FileMode] is a [uint32]; the two bits the walker looks at. *)
Definition ModeDir : Z := Z.shiftl 1 31.
Definition ModeSymlink : Z := Z.shiftl 1 27.

(** What the walker reads of an [os.FileInfo]. *)
Record FileInfo : Type := mkFileInfo {
  Name : string;
  Mode : Z;
  ModTime : Time
}.

Definition IsDir (fi : FileInfo) : bool :=
  negb (Z.land (Mode fi) ModeDir =? 0)%Z.

End os.

Record dirStats : Type := mkDirStats {
  Path : string;
  ModTime : Time;
  HasImages : bool;
  HasPlaylist : bool;
  AudioFilesCount : Z   (* uint32 *)
}.

(** The zero value of the struct, which [loadDir] starts from. *)
Definition zeroStats : dirStats := mkDirStats "" 0%Z false false 0%Z.

Definition set_Path (p : string) (s : dirStats) : dirStats :=
  mkDirStats p (ModTime s) (HasImages s) (HasPlaylist s) (AudioFilesCount s).
Definition set_ModTime (t : Time) (s : dirStats) : dirStats :=
  mkDirStats (Path s) t (HasImages s) (HasPlaylist s) (AudioFilesCount s).
Definition set_HasImages (b : bool) (s : dirStats) : dirStats :=
  mkDirStats (Path s) (ModTime s) b (HasPlaylist s) (AudioFilesCount s).
Definition set_HasPlaylist (b : bool) (s : dirStats) : dirStats :=
  mkDirStats (Path s) (ModTime s) (HasImages s) b (AudioFilesCount s).
Definition set_AudioFilesCount (n : Z) (s : dirStats) : dirStats :=
  mkDirStats (Path s) (ModTime s) (HasImages s) (HasPlaylist s) n.

Definition uint32_modulus : Z := 2 ^ 32.

(** [n++] on a [uint32]. *)
Definition uint32_incr (n : Z) : Z := ((n + 1) mod uint32_modulus)%Z.

(** A [context.Context], as far as its cancellation state goes. *)
Inductive Context : Type :=
| Background
| Canceled
| DeadlineExceeded.

Definition signaled (ctx : Context) : bool :=
  match ctx with Background => false | _ => true end.

Inductive level : Type := LevelError | LevelDebug | LevelTrace.

(** ** The outside world *)

(** Everything the walker calls that is not in walk_dir_tree.go: the operating
    system, [filepath.Clean], the [utils] predicates and the
    [consts.SkipScanFile] constant. *)
Record Env : Type := mkEnv {
  Stat : string -> os.FileInfo + error;            (* os.Stat, follows links *)
  ReadDir : string -> list os.FileInfo + error;    (* ioutil.ReadDir, lstat of each entry *)
  IsDirReadable : string -> bool * option error;   (* utils.IsDirReadable *)
  IsAudioFile : string -> bool;                    (* utils.IsAudioFile *)
  IsPlaylist : string -> bool;                     (* utils.IsPlaylist *)
  IsImageFile : string -> bool;                    (* utils.IsImageFile *)
  SkipScanFile : string;                           (* consts.SkipScanFile *)
  Clean : string -> string                         (* filepath.Clean *)
}.

(** ** Traces *)

Inductive event : Type :=
| EvStat (path : string)
| EvReadDir (path : string)
| EvIsDirReadable (path : string)
| EvIsAudioFile (name : string)
| EvIsPlaylist (name : string)
| EvIsImageFile (name : string)
| EvLog (ctx : option Context) (lvl : level) (msg : string)
| EvSend (s : dirStats)      (* results <- s *)
| EvClose.                   (* close(results) *)

(** A computation yields the calls it made, in order, and a value. *)
Definition M (A : Type) : Type := (list event * A)%type.

Definition ret {A} (a : A) : M A := ([], a).
Definition bind {A B} (m : M A) (k : A -> M B) : M B :=
  (fst m ++ fst (k (snd m)), snd (k (snd m))).
Definition emit (e : event) : M unit := ([e], tt).

Definition trace {A} (m : M A) : list event := fst m.
Definition val {A} (m : M A) : A := snd m.

Declare Scope walk_scope.
Delimit Scope walk_scope with walk.
Notation "x <- m ;; k" := (bind m (fun x => k))
  (at level 61, m at next level, right associativity) : walk_scope.
Notation "m ;;; k" := (bind m (fun _ => k))
  (at level 61, right associativity) : walk_scope.
Local Open Scope walk_scope.

(** Go's short-circuit [a && b()] and [a || b()]. *)
Definition andM (a : bool) (b : M bool) : M bool := if a then b else ret false.
Definition orM (a : bool) (b : M bool) : M bool := if a then ret true else b.

(** How a call of [walkFolder] ends: it returns an [error] (possibly [nil]),
    or the recursion is still going when the fuel is used up. *)
Inductive outcome : Type :=
| Returned (err : option error)
| OutOfFuel.

(** The records sent on the channel, and the number of [close] calls. *)
Fixpoint sent (tr : list event) : list dirStats :=
  match tr with
  | [] => []
  | EvSend s :: tr' => s :: sent tr'
  | _ :: tr' => sent tr'
  end.

Fixpoint closes (tr : list event) : nat :=
  match tr with
  | [] => 0
  | EvClose :: tr' => S (closes tr')
  | _ :: tr' => closes tr'
  end.

(** The calls to the operating system in a trace. *)
Definition is_fs_call (e : event) : bool :=
  match e with
  | EvStat _ | EvReadDir _ | EvIsDirReadable _ => true
  | _ => false
  end.

Definition fs_calls (tr : list event) : list event := filter is_fs_call tr.

Definition is_log (e : event) : bool :=
  match e with EvLog _ _ _ => true | _ => false end.

(** A trace without its log lines. *)
Definition unlogged (tr : list event) : list event :=
  filter (fun e => negb (is_log e)) tr.

(** A trace that touches the channel nowhere. *)
Definition offChannel (tr : list event) : Prop :=
  forall e, In e tr -> match e with EvSend _ | EvClose => False | _ => True end.

(** A trace that neither touches the channel nor lists a directory: what the
    handling of one entry of a listing may do. *)
Definition entryTrace (tr : list event) : Prop :=
  forall e, In e tr ->
    match e with EvReadDir _ | EvSend _ | EvClose => False | _ => True end.

Arguments bind {A B} m k : simpl never.
Arguments trace {A} m : simpl never.
Arguments val {A} m : simpl never.

(** [x] stands at an earlier place of [l] than [y]. *)
Definition before {A : Type} (x y : A) (l : list A) : Prop :=
  exists i j, i < j /\ nth_error l i = Some x /\ nth_error l j = Some y.

(** ** The walker *)

Section Walker.

Variable env : Env.

(** [filepath.Join]: the leading empty elements are dropped, the rest is
    joined with the separator and cleaned. *)
Fixpoint Join (elem : list string) : string :=
  match elem with
  | [] => ""
  | e :: rest =>
      if String.eqb e "" then Join rest
      else Clean env (String.concat "/" (e :: rest))
  end.

Definition os_Stat (path : string) : M (os.FileInfo + error) :=
  emit (EvStat path) ;;; ret (Stat env path).
Definition ioutil_ReadDir (path : string) : M (list os.FileInfo + error) :=
  emit (EvReadDir path) ;;; ret (ReadDir env path).
Definition utils_IsDirReadable (path : string) : M (bool * option error) :=
  emit (EvIsDirReadable path) ;;; ret (IsDirReadable env path).
Definition utils_IsAudioFile (name : string) : M bool :=
  emit (EvIsAudioFile name) ;;; ret (IsAudioFile env name).
Definition utils_IsPlaylist (name : string) : M bool :=
  emit (EvIsPlaylist name) ;;; ret (IsPlaylist env name).
Definition utils_IsImageFile (name : string) : M bool :=
  emit (EvIsImageFile name) ;;; ret (IsImageFile env name).

Definition log_Error (ctx : Context) (msg : string) : M unit :=
  emit (EvLog (Some ctx) LevelError msg).
Definition log_Trace (ctx : Context) (msg : string) : M unit :=
  emit (EvLog (Some ctx) LevelTrace msg).
Definition log_Debug (msg : string) : M unit :=
  emit (EvLog None LevelDebug msg).

Definition isDirOrSymlinkToDir (baseDir : string) (dirInfo : os.FileInfo)
  : M (bool * option error) :=
  if os.IsDir dirInfo then ret (true, None)
  else if (Z.land (os.Mode dirInfo) os.ModeSymlink =? 0)%Z then ret (false, None)
  else
    r <- os_Stat (Join [baseDir; os.Name dirInfo]) ;;
    match r with
    | inr err => ret (false, Some err)
    | inl dirInfo' => ret (os.IsDir dirInfo', None)
    end.

Definition isDirIgnored (baseDir : string) (dirInfo : os.FileInfo) : M bool :=
  if String.prefix "." (os.Name dirInfo) then ret true
  else
    r <- os_Stat (Join [baseDir; os.Name dirInfo; SkipScanFile env]) ;;
    match r with
    | inl _ => ret true
    | inr _ => ret false
    end.

Definition isDirReadable (baseDir : string) (dirInfo : os.FileInfo) : M bool :=
  let path := Join [baseDir; os.Name dirInfo] in
  r <- utils_IsDirReadable path ;;
  let '(res, _) := r in
  (if negb res then log_Debug "Warning: Skipping unreadable directory"
   else ret tt) ;;;
  ret res.

(** The [else] branch of the loop of [loadDir]: the entry is counted in the
    statistics of the directory. *)
Definition countEntry (f : os.FileInfo) (stats : dirStats) : M dirStats :=
  let stats :=
    if After (os.ModTime f) (ModTime stats)
    then set_ModTime (os.ModTime f) stats else stats in
  a <- utils_IsAudioFile (os.Name f) ;;
  if a then ret (set_AudioFilesCount (uint32_incr (AudioFilesCount stats)) stats)
  else
    p <- orM (HasPlaylist stats) (utils_IsPlaylist (os.Name f)) ;;
    let stats := set_HasPlaylist p stats in
    i <- orM (HasImages stats) (utils_IsImageFile (os.Name f)) ;;
    ret (set_HasImages i stats).

(** One iteration of the loop of [loadDir], on the entry [f]. *)
Definition loadDirEntry (ctx : Context) (dirPath : string) (f : os.FileInfo)
    (acc : list string * dirStats) : M (list string * dirStats) :=
  let '(children, stats) := acc in
  r <- isDirOrSymlinkToDir dirPath f ;;
  let '(isDir, err) := r in
  match err with
  | Some _ => log_Error ctx "Invalid symlink" ;;; ret (children, stats)
  | None =>
      c <- andM isDir
             (ig <- isDirIgnored dirPath f ;;
              andM (negb ig) (isDirReadable dirPath f)) ;;
      if c then ret (children ++ [Join [dirPath; os.Name f]], stats)
      else
        stats' <- countEntry f stats ;;
        ret (children, stats')
  end.

Fixpoint loadDirEntries (ctx : Context) (dirPath : string)
    (files : list os.FileInfo) (acc : list string * dirStats)
  : M (list string * dirStats) :=
  match files with
  | [] => ret acc
  | f :: files' =>
      acc' <- loadDirEntry ctx dirPath f acc ;;
      loadDirEntries ctx dirPath files' acc'
  end.

Definition loadDir (ctx : Context) (dirPath : string)
  : M (list string * dirStats * option error) :=
  r <- os_Stat dirPath ;;
  match r with
  | inr err =>
      log_Error ctx "Error stating dir" ;;; ret ([], zeroStats, Some err)
  | inl dirInfo =>
      let stats := set_ModTime (os.ModTime dirInfo) zeroStats in
      l <- ioutil_ReadDir dirPath ;;
      match l with
      | inr err =>
          log_Error ctx "Error reading dir" ;;; ret ([], stats, Some err)
      | inl files =>
          acc <- loadDirEntries ctx dirPath files ([], stats) ;;
          ret (fst acc, snd acc, None)
      end
  end.

(** The loop of [walkFolder] over the children: it stops at the first call
    that does not return [nil]. *)
Fixpoint walkChildren (walk : string -> M outcome) (children : list string)
  : M outcome :=
  match children with
  | [] => ret (Returned None)
  | c :: children' =>
      r <- walk c ;;
      match r with
      | Returned None => walkChildren walk children'
      | _ => ret r
      end
  end.

Fixpoint walkFolder (fuel : nat) (ctx : Context) (rootPath currentFolder : string)
  : M outcome :=
  match fuel with
  | O => ret OutOfFuel
  | S fuel' =>
      l <- loadDir ctx currentFolder ;;
      let '(children, stats, err) := l in
      match err with
      | Some e => ret (Returned (Some e))
      | None =>
          r <- walkChildren (walkFolder fuel' ctx rootPath) children ;;
          match r with
          | Returned None =>
              let dir := Clean env currentFolder in
              log_Trace ctx "Found directory" ;;;
              emit (EvSend (set_Path dir stats)) ;;;
              ret (Returned None)
          | _ => ret r
          end
      end
  end.

Definition walkDirTree (fuel : nat) (ctx : Context) (rootFolder : string)
  : M outcome :=
  r <- walkFolder fuel ctx rootFolder rootFolder ;;
  match r with
  | OutOfFuel => ret OutOfFuel
  | Returned err =>
      (match err with
       | Some _ => log_Error ctx "Error loading directory tree"
       | None => ret tt
       end) ;;;
      emit EvClose ;;;
      ret (Returned err)
  end.

End Walker.

Arguments Join env elem : simpl never.
Arguments isDirOrSymlinkToDir env baseDir dirInfo : simpl never.
Arguments isDirIgnored env baseDir dirInfo : simpl never.
Arguments isDirReadable env baseDir dirInfo : simpl never.
Arguments countEntry env f stats : simpl never.
Arguments loadDirEntry env ctx dirPath f acc : simpl never.
Arguments loadDir env ctx dirPath : simpl never.

(** ** Directories, children and records, read off [loadDir]

    The value [loadDir] returns does not depend on the context (it is used for
    the log lines only), so these are stated at [Background]. *)

Section Tree.

Variable env : Env.

(** The entries [ioutil.ReadDir] lists for [d] (none when it fails). *)
Definition entriesOf (d : string) : list os.FileInfo :=
  match ReadDir env d with inl files => files | inr _ => [] end.

(** The error [loadDir] returns for [d]. *)
Definition loadErr (d : string) : option error :=
  snd (val (loadDir env Background d)).

(** The children [walkFolder] recurses into from [d]. *)
Definition subdirs (d : string) : list string :=
  match loadErr d with
  | None => fst (fst (val (loadDir env Background d)))
  | Some _ => []
  end.

(** The record [walkFolder] sends for [d] once its children are done. *)
Definition recordOf (d : string) : dirStats :=
  set_Path (Clean env d) (snd (fst (val (loadDir env Background d)))).

(** [desc a d]: the walk of [a] recurses, directly or through further
    directories, into [d]. *)
Inductive desc : string -> string -> Prop :=
| desc_child : forall a c, In c (subdirs a) -> desc a c
| desc_step : forall a c d, In c (subdirs a) -> desc c d -> desc a d.

Definition reach (a p : string) : Prop := a = p \/ desc a p.

(** What the loop of [loadDir] does with an entry. *)
Inductive kind : Type :=
| Skipped     (* the link could not be resolved *)
| Subdir      (* recursed into *)
| Leaf.       (* counted in the statistics of the directory *)

Definition entryKind (dir : string) (f : os.FileInfo) : kind :=
  let '(isDir, err) := val (isDirOrSymlinkToDir env dir f) in
  match err with
  | Some _ => Skipped
  | None =>
      if isDir && negb (val (isDirIgnored env dir f))
               && val (isDirReadable env dir f)
      then Subdir else Leaf
  end.

Definition isSubdir (dir : string) (f : os.FileInfo) : bool :=
  match entryKind dir f with Subdir => true | _ => false end.
Definition isLeaf (dir : string) (f : os.FileInfo) : bool :=
  match entryKind dir f with Leaf => true | _ => false end.

(** A subdirectory candidate: a directory, or a link that resolves to one. *)
Definition isCandidate (dir : string) (f : os.FileInfo) : bool :=
  match val (isDirOrSymlinkToDir env dir f) with
  | (true, None) => true
  | _ => false
  end.

(** A file entry: not a directory, and not a link to one, the link resolved. *)
Definition isFileEntry (dir : string) (f : os.FileInfo) : bool :=
  match val (isDirOrSymlinkToDir env dir f) with
  | (false, None) => true
  | _ => false
  end.

(** The three exclusion tests of a candidate. *)
Definition hiddenName (f : os.FileInfo) : bool :=
  String.prefix "." (os.Name f).
Definition hasSkipFile (dir : string) (f : os.FileInfo) : bool :=
  match Stat env (Join env [dir; os.Name f; SkipScanFile env]) with
  | inl _ => true
  | inr _ => false
  end.
Definition readable (dir : string) (f : os.FileInfo) : bool :=
  fst (IsDirReadable env (Join env [dir; os.Name f])).

Definition passesPolicy (dir : string) (f : os.FileInfo) : bool :=
  if hiddenName f then false
  else if hasSkipFile dir f then false
  else readable dir f.

(** The entries that are counted in the statistics of [dir]: the file
    entries, and the candidates the policy excludes. *)
Definition isCounted (dir : string) (f : os.FileInfo) : bool :=
  isFileEntry dir f || (isCandidate dir f && negb (passesPolicy dir f)).

Definition countedEntries (dir : string) : list os.FileInfo :=
  filter (isCounted dir) (entriesOf dir).

Definition fileEntries (dir : string) : list os.FileInfo :=
  filter (isFileEntry dir) (entriesOf dir).

(** The calls to the operating system the policy makes for a candidate,
    in order. *)
Definition policyCalls (dir : string) (f : os.FileInfo) : list event :=
  if hiddenName f then []
  else
    EvStat (Join env [dir; os.Name f; SkipScanFile env]) ::
    (if hasSkipFile dir f then []
     else [EvIsDirReadable (Join env [dir; os.Name f])]).

(** [included root p]: [p] is the root, or is reached from it through
    entries that are candidates and pass the policy. *)
Inductive included (root : string) : string -> Prop :=
| included_root : included root root
| included_step : forall d f,
    included root d ->
    In f (entriesOf d) ->
    isCandidate d f = true ->
    passesPolicy d f = true ->
    included root (Join env [d; os.Name f]).

(** The modification time of [d] itself, as [os.Stat] gives it. *)
Definition rawModTime (d : string) : Time :=
  match Stat env d with inl di => os.ModTime di | inr _ => 0%Z end.

Definition maxTime (t : Time) (ts : list Time) : Time := fold_left Z.max ts t.

Definition audioName (f : os.FileInfo) : bool := IsAudioFile env (os.Name f).

(** The statistics after the entries [files] have been counted. *)
Definition counted (files : list os.FileInfo) (st : dirStats) : dirStats :=
  fold_left (fun st f => val (countEntry env f st)) files st.

(** The statistics of [d] as computed from its file entries alone. *)
Definition filesOnlyModTime (d : string) : Time :=
  maxTime (rawModTime d) (map os.ModTime (fileEntries d)).
Definition filesOnlyAudioCount (d : string) : Z :=
  Z.of_nat (List.length (filter audioName (fileEntries d))).

End Tree.

(** A link whose target cannot be statted. *)
Definition isBrokenLink (env : Env) (dir : string) (f : os.FileInfo) : bool :=
  negb (os.IsDir f) &&
  negb (Z.land (os.Mode f) os.ModeSymlink =? 0)%Z &&
  match Stat env (Join env [dir; os.Name f]) with
  | inr _ => true
  | inl _ => false
  end.

(** The file system [env] with the listing of [dir] replaced by [files]. *)
Definition withListing (env : Env) (dir : string) (files : list os.FileInfo) : Env :=
  {| Stat := Stat env;
     ReadDir := fun p => if String.eqb p dir then inl files else ReadDir env p;
     IsDirReadable := IsDirReadable env;
     IsAudioFile := IsAudioFile env;
     IsPlaylist := IsPlaylist env;
     IsImageFile := IsImageFile env;
     SkipScanFile := SkipScanFile env;
     Clean := Clean env |}.

(** [chain a ps]: the walk goes down from [a] along [ps], one child after the
    other. *)
Fixpoint chain (env : Env) (a : string) (ps : list string) : Prop :=
  match ps with
  | [] => True
  | p :: ps' => In p (subdirs env a) /\ chain env p ps'
  end.

(** The walk respects a token that is signaled from the start: the only
    directory it lists is the root, whose listing precedes every descent. *)
Definition stopsWhenSignaled (env : Env) : Prop :=
  forall fuel ctx root p,
    signaled ctx = true ->
    In (EvReadDir p) (trace (walkDirTree env fuel ctx root)) ->
    p = root.

(** Every record carries the modification time computed from the directory
    and its file entries alone. *)
Definition modTimeFromFilesOnly (env : Env) : Prop :=
  forall fuel ctx root s p,
    In s (sent (trace (walkDirTree env fuel ctx root))) ->
    Path s = Clean env p ->
    ModTime s = filesOnlyModTime env p.

(** Every record carries the number of audio names among the file entries. *)
Definition audioCountFromFilesOnly (env : Env) : Prop :=
  forall fuel ctx root s p,
    In s (sent (trace (walkDirTree env fuel ctx root))) ->
    Path s = Clean env p ->
    AudioFilesCount s = filesOnlyAudioCount env p.

(** ** Example file systems *)

Fixpoint lookup {A : Type} (k : string) (tbl : list (string * A)) : option A :=
  match tbl with
  | [] => None
  | (k', a) :: tbl' => if String.eqb k k' then Some a else lookup k tbl'
  end.

(** [strings.HasSuffix]: some tail of [s] is [suffix]. *)
Fixpoint hasSuffix (suffix s : string) : bool :=
  if String.eqb s suffix then true
  else match s with
       | EmptyString => false
       | String _ s' => hasSuffix suffix s'
       end.

(** A file system given by two tables: what [os.Stat] answers for a path, and
    what [ioutil.ReadDir] answers for it.  Paths that are not in [unreadable]
    are readable.  The paths of the tables below are absolute and clean, and
    [filepath.Clean] leaves such paths as they are. *)
Definition tableEnv (nodes : list (string * os.FileInfo))
    (dirs : list (string * (list os.FileInfo + error)))
    (unreadable : list string) : Env :=
  {| Stat := fun p =>
       match lookup p nodes with Some fi => inl fi | None => inr ENOENT end;
     ReadDir := fun p =>
       match lookup p dirs with Some r => r | None => inr ENOTDIR end;
     IsDirReadable := fun p =>
       if existsb (String.eqb p) unreadable then (false, Some EACCES)
       else (true, None);
     IsAudioFile := hasSuffix ".mp3";
     IsPlaylist := hasSuffix ".m3u";
     IsImageFile := hasSuffix ".jpg";
     SkipScanFile := ".ndignore";
     Clean := fun p => p |}.

Definition dirMode : Z := Z.lor os.ModeDir 493.        (* drwxr-xr-x *)
Definition fileMode : Z := 420.                         (* -rw-r--r-- *)
Definition linkMode : Z := Z.lor os.ModeSymlink 511.    (* Lrwxrwxrwx *)

Definition aDir (name : string) (t : Time) := os.mkFileInfo name dirMode t.
Definition aFile (name : string) (t : Time) := os.mkFileInfo name fileMode t.
Definition aLink (name : string) (t : Time) := os.mkFileInfo name linkMode t.

(** A music folder: [a] holds a song; [.hidden] is hidden and newer than the
    folder; [b] and [live.mp3] hold the skip file; [broken] is a link whose
    target is gone; [cover.jpg] is a file. *)
Definition musicFS : Env :=
  tableEnv
    [ ("/music", aDir "music" 50);
      ("/music/.hidden", aDir ".hidden" 100);
      ("/music/.hidden/x.mp3", aFile "x.mp3" 7);
      ("/music/a", aDir "a" 10);
      ("/music/a/song.mp3", aFile "song.mp3" 20);
      ("/music/b", aDir "b" 30);
      ("/music/b/.ndignore", aFile ".ndignore" 5);
      ("/music/b/c.mp3", aFile "c.mp3" 6);
      ("/music/cover.jpg", aFile "cover.jpg" 60);
      ("/music/live.mp3", aDir "live.mp3" 40);
      ("/music/live.mp3/.ndignore", aFile ".ndignore" 8) ]%Z
    [ ("/music",
       inl [ aDir ".hidden" 100; aDir "a" 10; aDir "b" 30; aLink "broken" 999;
             aFile "cover.jpg" 60; aDir "live.mp3" 40 ]);
      ("/music/.hidden", inl [ aFile "x.mp3" 7 ]);
      ("/music/a", inl [ aFile "song.mp3" 20 ]);
      ("/music/b", inl [ aFile ".ndignore" 5; aFile "c.mp3" 6 ]);
      ("/music/live.mp3", inl [ aFile ".ndignore" 8 ]) ]%Z
    [].

(** The record of the music folder itself. *)
Definition musicRecord : dirStats := mkDirStats "/music" 100%Z true false 1%Z.

(** A folder whose subdirectory [z] cannot be listed, although it passes the
    readability check. *)
Definition failFS : Env :=
  tableEnv
    [ ("/music", aDir "music" 50);
      ("/music/a", aDir "a" 10);
      ("/music/a/song.mp3", aFile "song.mp3" 20);
      ("/music/z", aDir "z" 30) ]%Z
    [ ("/music", inl [ aDir "a" 10; aDir "z" 30 ]);
      ("/music/a", inl [ aFile "song.mp3" 20 ]);
      ("/music/z", inr EIO) ]%Z
    [].

(** A folder that holds a link [loop] to itself: every path that is not a skip
    file is a readable directory whose one entry is that link. *)
Definition loopFS : Env :=
  {| Stat := fun p =>
       if hasSuffix "/.ndignore" p then inr ENOENT else inl (aDir "music" 1%Z);
     ReadDir := fun _ => inl [aLink "loop" 1%Z];
     IsDirReadable := fun _ => (true, None);
     IsAudioFile := hasSuffix ".mp3";
     IsPlaylist := hasSuffix ".m3u";
     IsImageFile := hasSuffix ".jpg";
     SkipScanFile := ".ndignore";
     Clean := fun p => p |}.

(** The path of the folder seen through [n] turns of the link. *)
Fixpoint loopPath (n : nat) : string :=
  match n with
  | O => "/music"
  | S n' => loopPath n' ++ "/loop"
  end.

From Stdlib Require Import Permutation Sorted.

(** ** The order of a walk *)

(** The directories under [d] in the order in which their walks end, and in
    the order in which their walks begin; [fuel] bounds the depth. *)
Fixpoint postorder (env : Env) (fuel : nat) (d : string) : list string :=
  match fuel with
  | O => []
  | S fuel' => flat_map (postorder env fuel') (subdirs env d) ++ [d]
  end.

Fixpoint preorder (env : Env) (fuel : nat) (d : string) : list string :=
  match fuel with
  | O => []
  | S fuel' => d :: flat_map (preorder env fuel') (subdirs env d)
  end.

(** The directories listed in a trace, in order. *)
Fixpoint listed (tr : list event) : list string :=
  match tr with
  | [] => []
  | EvReadDir p :: tr' => p :: listed tr'
  | _ :: tr' => listed tr'
  end.

(** The last calls of a walk that fails at [F] with [e]: the stat or the
    listing of [F] that returned [e], and the log line for it. *)
Definition failureOf (env : Env) (ctx : Context) (F : string) (e : error)
    (tl : list event) : Prop :=
  (Stat env F = inr e /\
   tl = [EvStat F; EvLog (Some ctx) LevelError "Error stating dir"]) \/
  ((exists di, Stat env F = inl di) /\ ReadDir env F = inr e /\
   tl = [EvStat F; EvReadDir F; EvLog (Some ctx) LevelError "Error reading dir"]).

(** * The version string (consts/version.go) *)

Module consts.

(** The package variables [gitTag] and [gitSha]. *)
Record globals : Type := mkGlobals {
  gitTag : string;
  gitSha : string
}.

(** [strings.TrimPrefix]. *)
Definition TrimPrefix (s prefix : string) : string :=
  if String.prefix prefix s
  then substring (String.length prefix) (String.length s - String.length prefix) s
  else s.

(** [fmt.Sprintf("%s (%s)", a, b)]. *)
Definition Sprintf_tag_sha (a b : string) : string :=
  (a ++ " (" ++ b ++ ")")%string.

(** [Version] reads and writes [gitTag]: it returns the string and the
    variables as it leaves them. *)
Definition Version (g : globals) : string * globals :=
  if String.eqb (gitSha g) "" then ("dev", g)
  else
    let tag := TrimPrefix (gitTag g) "v" in
    (Sprintf_tag_sha tag (gitSha g), mkGlobals tag (gitSha g)).

(** What one call does to the tag. *)
Definition stripV (tag : string) : string := TrimPrefix tag "v".

(** The strings [n] calls in a row return, and the variables after them. *)
Fixpoint calls (n : nat) (g : globals) : list string * globals :=
  match n with
  | O => ([], g)
  | S n' =>
      let '(r, g1) := Version g in
      let '(rs, g2) := calls n' g1 in
      (r :: rs, g2)
  end.

End consts.

(** * Full-text keys (utils/strings.go) *)

Module utils.

(** A Go string once decoded: its code points.  [strings.ToLower] returns
    well-formed UTF-8 whatever it is given, and on well-formed UTF-8 the
    functions below work code point by code point, byte order being code point
    order. *)
Definition rune : Type := Z.

(** [unicode.IsSpace]. *)
Definition IsSpace (r : rune) : bool :=
  if (r <=? 255)%Z
  then existsb (Z.eqb r) [9; 10; 11; 12; 13; 32; 133; 160]%Z
  else
    (r =? 5760)%Z ||
    ((8192 <=? r) && (r <=? 8202))%Z ||
    existsb (Z.eqb r) [8232; 8233; 8239; 8287; 12288]%Z.

(** The class of [quotesRegex]: the four curly quotes, the two straight
    ones, and the three kinds of brackets. *)
Definition quotes : list rune :=
  [8220; 8221; 8216; 8217; 39; 34; 91; 40; 123; 93; 41; 125]%Z.

Definition isQuote (r : rune) : bool := existsb (Z.eqb r) quotes.

(** [quotesRegex.ReplaceAllString(w, "")]. *)
Definition stripQuotes (w : list rune) : list rune :=
  filter (fun r => negb (isQuote r)) w.

Definition consWord (w : list rune) (ws : list (list rune)) : list (list rune) :=
  match w with
  | [] => ws
  | _ => w :: ws
  end.

(** The word that begins [s] (empty when [s] begins with a space) and the
    words after it. *)
Fixpoint split (s : list rune) : list rune * list (list rune) :=
  match s with
  | [] => ([], [])
  | r :: s' =>
      let '(w, ws) := split s' in
      if IsSpace r then ([], consWord w ws) else (r :: w, ws)
  end.

(** [strings.Fields]. *)
Definition Fields (s : list rune) : list (list rune) :=
  consWord (fst (split s)) (snd (split s)).

Fixpoint trimLeft (s : list rune) : list rune :=
  match s with
  | [] => []
  | r :: s' => if IsSpace r then trimLeft s' else s
  end.

Fixpoint trimRight (s : list rune) : list rune :=
  match s with
  | [] => []
  | r :: s' =>
      match trimRight s' with
      | [] => if IsSpace r then [] else [r]
      | t => r :: t
      end
  end.

(** [strings.TrimSpace]. *)
Definition TrimSpace (s : list rune) : list rune := trimRight (trimLeft s).

(** [strings.Join(elems, " ")]. *)
Fixpoint Join (elems : list (list rune)) : list rune :=
  match elems with
  | [] => []
  | [w] => w
  | w :: ws => w ++ 32%Z :: Join ws
  end.

(** The order of Go's [<] on strings. *)
Fixpoint leString (a b : list rune) : bool :=
  match a, b with
  | [], _ => true
  | _ :: _, [] => false
  | x :: a', y :: b' => (x <? y)%Z || ((x =? y)%Z && leString a' b')
  end.

(** [sort.Strings]: the one ascending arrangement of the slice. *)
Fixpoint insertSorted (w : list rune) (ws : list (list rune)) : list (list rune) :=
  match ws with
  | [] => [w]
  | v :: ws' => if leString w v then w :: ws else v :: insertSorted w ws'
  end.

Fixpoint sortStrings (ws : list (list rune)) : list (list rune) :=
  match ws with
  | [] => []
  | w :: ws' => insertSorted w (sortStrings ws')
  end.

(** Ascending, in that order. *)
Definition ascending : list (list rune) -> Prop :=
  StronglySorted (fun a b => leString a b = true).

(** A word: not empty, and without a space. *)
Definition isWord (w : list rune) : Prop :=
  w <> [] /\ forall r, In r w -> IsSpace r = false.

Definition nonEmpty (w : list rune) : bool :=
  match w with [] => false | _ => true end.

Definition rune_list_eq_dec : forall a b : list rune, {a = b} + {a <> b} :=
  list_eq_dec Z.eq_dec.

Section SanitizeStrings.

(** [strings.ToLower], from the bytes of the argument to the code points of
    the result, and [sanitize.Accents] of github.com/kennygrant/sanitize. *)
Variable ToLower : string -> list rune.
Variable Accents : list rune -> list rune.

(** What the first loop writes to the builder. *)
Definition sanitizedText (text : list string) : list rune :=
  flat_map (fun txt => TrimSpace (Accents (ToLower txt)) ++ [32%Z]) text.

(** The keys of the map [words], in the order in which they were first put. *)
Definition words (text : list string) : list (list rune) :=
  nodup rune_list_eq_dec (Fields (sanitizedText text)).

(** The rest of the function, for the keys [ks] in the order in which the
    [range] over the map yields them. *)
Definition fullText (ks : list (list rune)) : list (list rune) :=
  sortStrings (filter nonEmpty (map stripQuotes ks)).

Definition SanitizeStringsIn (ks : list (list rune)) : list rune :=
  Join (fullText ks).

Definition SanitizeStrings (text : list string) : list rune :=
  SanitizeStringsIn (words text).

End SanitizeStrings.

(** [strings.ToLower] on a string of ASCII bytes. *)
Definition lowerASCII (c : ascii) : rune :=
  let n := Z.of_N (N_of_ascii c) in
  if ((65 <=? n) && (n <=? 90))%Z then (n + 32)%Z else n.

Definition ToLowerASCII (s : string) : list rune :=
  map lowerASCII (list_ascii_of_string s).

End utils.

(** ** Traces and values of the building blocks *)

Section Basics.

Variable env : Env.

Lemma trace_bind {A B} (m : M A) (k : A -> M B) :
  trace (bind m k) = trace m ++ trace (k (val m)).
Proof. reflexivity. Qed.

Lemma val_bind {A B} (m : M A) (k : A -> M B) :
  val (bind m k) = val (k (val m)).
Proof. reflexivity. Qed.

Lemma val_ret {A} (a : A) : val (ret a) = a.
Proof. reflexivity. Qed.

Lemma val_ret_pair {A} (t : list event) (a : A) : val (t, a) = a.
Proof. reflexivity. Qed.

Lemma trace_ret {A} (a : A) : trace (ret a) = [].
Proof. reflexivity. Qed.

Lemma sent_app (t1 t2 : list event) : sent (t1 ++ t2) = sent t1 ++ sent t2.
Proof.
  induction t1 as [|e t1 IH]; simpl; [reflexivity|].
  destruct e; simpl; rewrite IH; reflexivity.
Qed.

Lemma closes_app (t1 t2 : list event) : closes (t1 ++ t2) = closes t1 + closes t2.
Proof.
  induction t1 as [|e t1 IH]; simpl; [reflexivity|].
  destruct e; simpl; rewrite IH; reflexivity.
Qed.

Lemma unlogged_app (t1 t2 : list event) :
  unlogged (t1 ++ t2) = unlogged t1 ++ unlogged t2.
Proof. apply filter_app. Qed.

Lemma fs_calls_app (t1 t2 : list event) :
  fs_calls (t1 ++ t2) = fs_calls t1 ++ fs_calls t2.
Proof. apply filter_app. Qed.

Lemma offChannel_nil : offChannel [].
Proof. intros e []. Qed.

Lemma offChannel_app t1 t2 : offChannel t1 -> offChannel t2 -> offChannel (t1 ++ t2).
Proof. intros H1 H2 e He. apply in_app_or in He. destruct He; [apply H1 | apply H2]; assumption. Qed.

Lemma offChannel_sent tr : offChannel tr -> sent tr = [].
Proof.
  induction tr as [|e tr IH]; intros H; [reflexivity|].
  assert (He := H e (or_introl eq_refl)).
  destruct e; simpl; try (apply IH; intros x Hx; apply H; right; exact Hx);
    contradiction.
Qed.

Lemma offChannel_closes tr : offChannel tr -> closes tr = 0.
Proof.
  induction tr as [|e tr IH]; intros H; [reflexivity|].
  assert (He := H e (or_introl eq_refl)).
  destruct e; simpl; try (apply IH; intros x Hx; apply H; right; exact Hx);
    contradiction.
Qed.

Lemma entryTrace_nil : entryTrace [].
Proof. intros e []. Qed.

Lemma entryTrace_app t1 t2 : entryTrace t1 -> entryTrace t2 -> entryTrace (t1 ++ t2).
Proof. intros H1 H2 e He. apply in_app_or in He. destruct He; [apply H1 | apply H2]; assumption. Qed.

Lemma entryTrace_offChannel tr : entryTrace tr -> offChannel tr.
Proof. intros H e He. specialize (H e He). destruct e; tauto. Qed.

Lemma entryTrace_isDirOrSymlinkToDir dir f :
  entryTrace (trace (isDirOrSymlinkToDir env dir f)).
Proof.
  unfold isDirOrSymlinkToDir.
  destruct (os.IsDir f); [apply entryTrace_nil|].
  destruct (Z.land (os.Mode f) os.ModeSymlink =? 0)%Z; [apply entryTrace_nil|].
  unfold os_Stat, bind, emit, ret, trace; simpl.
  destruct (Stat env _); simpl; intros x [<-|[]]; exact I.
Qed.

Lemma entryTrace_isDirIgnored dir f :
  entryTrace (trace (isDirIgnored env dir f)).
Proof.
  unfold isDirIgnored.
  destruct (String.prefix _ _); [apply entryTrace_nil|].
  unfold os_Stat, bind, emit, ret, trace; simpl.
  destruct (Stat env _); simpl; intros x [<-|[]]; exact I.
Qed.

Lemma entryTrace_isDirReadable dir f :
  entryTrace (trace (isDirReadable env dir f)).
Proof.
  unfold isDirReadable, utils_IsDirReadable, log_Debug, bind, emit, ret, trace; simpl.
  destruct (IsDirReadable env _) as [[|] oe]; simpl.
  - intros x [<-|[]]; exact I.
  - intros x [<-|[<-|[]]]; exact I.
Qed.

Lemma entryTrace_countEntry f st : entryTrace (trace (countEntry env f st)).
Proof.
  unfold countEntry, utils_IsAudioFile, utils_IsPlaylist, utils_IsImageFile,
    orM, bind, emit, ret, trace; simpl.
  destruct (IsAudioFile env _); simpl.
  - intros x [<-|[]]; exact I.
  - destruct (After _ _); simpl;
      destruct (HasPlaylist st), (HasImages st); simpl;
      intros x He; repeat (destruct He as [<-|He]; [exact I|]); destruct He.
Qed.

Lemma entryTrace_loadDirEntry ctx dir f acc :
  entryTrace (trace (loadDirEntry env ctx dir f acc)).
Proof.
  unfold loadDirEntry. destruct acc as [cs st]. cbv beta iota.
  rewrite trace_bind. apply entryTrace_app; [apply entryTrace_isDirOrSymlinkToDir|].
  destruct (val (isDirOrSymlinkToDir env dir f)) as [isDir [e|]]; cbv beta iota.
  - intros x [<-|[]]; exact I.
  - rewrite trace_bind. apply entryTrace_app.
    + destruct isDir; unfold andM at 1; [|apply entryTrace_nil].
      rewrite trace_bind. apply entryTrace_app; [apply entryTrace_isDirIgnored|].
      destruct (val (isDirIgnored env dir f)); unfold andM, negb;
        [apply entryTrace_nil | apply entryTrace_isDirReadable].
    + match goal with |- context [if ?c then _ else _] => destruct c end.
      * apply entryTrace_nil.
      * rewrite trace_bind. apply entryTrace_app;
          [apply entryTrace_countEntry | apply entryTrace_nil].
Qed.

Lemma entryTrace_loadDirEntries ctx dir files acc :
  entryTrace (trace (loadDirEntries env ctx dir files acc)).
Proof.
  revert acc. induction files as [|f files IH]; intros acc; simpl.
  - apply entryTrace_nil.
  - rewrite trace_bind. apply entryTrace_app;
      [apply entryTrace_loadDirEntry | apply IH].
Qed.

Lemma offChannel_loadDir ctx dir : offChannel (trace (loadDir env ctx dir)).
Proof.
  unfold loadDir. rewrite trace_bind. apply offChannel_app.
  - intros e [<-|[]]; exact I.
  - destruct (val (os_Stat env dir)) as [di|err].
    + rewrite trace_bind. apply offChannel_app.
      * intros e [<-|[]]; exact I.
      * destruct (val (ioutil_ReadDir env dir)) as [files|err].
        -- rewrite trace_bind. apply offChannel_app;
             [apply entryTrace_offChannel, entryTrace_loadDirEntries
             | apply offChannel_nil].
        -- intros e [<-|[]]; exact I.
    + intros e [<-|[]]; exact I.
Qed.

Lemma ReadDir_loadDir ctx dir p :
  In (EvReadDir p) (trace (loadDir env ctx dir)) -> p = dir.
Proof.
  unfold loadDir. rewrite trace_bind. intros H.
  apply in_app_or in H. destruct H as [[H|[]]|H]; [discriminate H|].
  destruct (val (os_Stat env dir)) as [di|err].
  - rewrite trace_bind in H. apply in_app_or in H.
    destruct H as [[H|[]]|H]; [congruence|].
    destruct (val (ioutil_ReadDir env dir)) as [files|err].
    + rewrite trace_bind in H. apply in_app_or in H. destruct H as [H|[]].
      exfalso. exact (entryTrace_loadDirEntries ctx dir files _ _ H).
    + destruct H as [H|[]]. discriminate H.
  - destruct H as [H|[]]. discriminate H.
Qed.

End Basics.

(** ** What [loadDir] computes *)

Section LoadDir.

Variable env : Env.

Lemma val_isDirIgnored dir f :
  val (isDirIgnored env dir f) = hiddenName f || hasSkipFile env dir f.
Proof.
  unfold isDirIgnored, hiddenName, hasSkipFile.
  destruct (String.prefix "." (os.Name f)); [reflexivity|].
  rewrite val_bind. unfold os_Stat. rewrite val_bind. unfold ret, val at 2. simpl snd.
  destruct (Stat env _); reflexivity.
Qed.

Lemma val_isDirReadable dir f :
  val (isDirReadable env dir f) = readable env dir f.
Proof.
  unfold isDirReadable, readable, utils_IsDirReadable.
  rewrite !val_bind. unfold ret at 1, val at 2. simpl snd.
  destruct (IsDirReadable env _) as [res oe]. reflexivity.
Qed.

Lemma isSubdir_policy dir f :
  isSubdir env dir f = isCandidate env dir f && passesPolicy env dir f.
Proof.
  unfold isSubdir, isCandidate, entryKind, passesPolicy.
  rewrite val_isDirIgnored, val_isDirReadable.
  destruct (val (isDirOrSymlinkToDir env dir f)) as [[|] [e|]]; simpl; try reflexivity.
  destruct (hiddenName f); simpl; [reflexivity|].
  destruct (hasSkipFile env dir f); simpl; [reflexivity|].
  destruct (readable env dir f); reflexivity.
Qed.

Lemma val_countEntry f st :
  val (countEntry env f st) =
    let t := Z.max (ModTime st) (os.ModTime f) in
    if audioName env f
    then mkDirStats (Path st) t (HasImages st) (HasPlaylist st)
           (uint32_incr (AudioFilesCount st))
    else mkDirStats (Path st) t
           (HasImages st || IsImageFile env (os.Name f))
           (HasPlaylist st || IsPlaylist env (os.Name f))
           (AudioFilesCount st).
Proof.
  destruct st as [p t hi hp n].
  unfold countEntry, audioName, utils_IsAudioFile, utils_IsPlaylist,
    utils_IsImageFile, orM, After, val, bind, ret, emit,
    set_ModTime, set_AudioFilesCount, set_HasPlaylist, set_HasImages.
  simpl.
  destruct (IsAudioFile env (os.Name f));
    destruct (Z.ltb_spec t (os.ModTime f)); simpl;
    destruct hp, hi; simpl; f_equal; lia.
Qed.

Lemma val_loadDirEntry ctx dir f cs st :
  val (loadDirEntry env ctx dir f (cs, st)) =
    match entryKind env dir f with
    | Skipped => (cs, st)
    | Subdir => (cs ++ [Join env [dir; os.Name f]], st)
    | Leaf => (cs, val (countEntry env f st))
    end.
Proof.
  unfold loadDirEntry, entryKind. cbv beta iota. rewrite val_bind.
  destruct (val (isDirOrSymlinkToDir env dir f)) as [isDir [e|]]; cbv beta iota.
  - reflexivity.
  - rewrite val_bind. destruct isDir; unfold andM at 1.
    + rewrite val_bind.
      destruct (val (isDirIgnored env dir f)); unfold andM, negb; simpl andb.
      * reflexivity.
      * destruct (val (isDirReadable env dir f)); reflexivity.
    + reflexivity.
Qed.

Lemma val_loadDirEntries ctx dir files cs st :
  val (loadDirEntries env ctx dir files (cs, st)) =
    (cs ++ map (fun f => Join env [dir; os.Name f]) (filter (isSubdir env dir) files),
     counted env (filter (isLeaf env dir) files) st).
Proof.
  revert cs st. induction files as [|f files IH]; intros cs st; simpl.
  - rewrite app_nil_r. reflexivity.
  - rewrite val_bind.
    destruct (val (loadDirEntry env ctx dir f (cs, st))) as [cs' st'] eqn:E.
    rewrite IH. rewrite val_loadDirEntry in E.
    unfold isSubdir, isLeaf.
    destruct (entryKind env dir f); inversion E; subst; simpl.
    + reflexivity.
    + rewrite <- app_assoc. reflexivity.
    + reflexivity.
Qed.

Lemma val_loadDir ctx dir :
  val (loadDir env ctx dir) =
    match Stat env dir with
    | inr err => ([], zeroStats, Some err)
    | inl di =>
        let stats := set_ModTime (os.ModTime di) zeroStats in
        match ReadDir env dir with
        | inr err => ([], stats, Some err)
        | inl files =>
            (map (fun f => Join env [dir; os.Name f]) (filter (isSubdir env dir) files),
             counted env (filter (isLeaf env dir) files) stats, None)
        end
    end.
Proof.
  unfold loadDir. rewrite val_bind.
  change (val (os_Stat env dir)) with (Stat env dir).
  destruct (Stat env dir) as [di|err]; [|reflexivity].
  cbv zeta. rewrite val_bind.
  change (val (ioutil_ReadDir env dir)) with (ReadDir env dir).
  destruct (ReadDir env dir) as [files|err]; [|reflexivity].
  rewrite val_bind.
  rewrite val_loadDirEntries. reflexivity.
Qed.

Lemma val_loadDir_ctx ctx dir :
  val (loadDir env ctx dir) = val (loadDir env Background dir).
Proof. rewrite !val_loadDir. reflexivity. Qed.

Lemma counted_ModTime files st :
  ModTime (counted env files st) = maxTime (ModTime st) (map os.ModTime files).
Proof.
  unfold counted, maxTime. revert st.
  induction files as [|f files IH]; intros st; simpl; [reflexivity|].
  rewrite IH, val_countEntry. cbv zeta.
  destruct (audioName env f); reflexivity.
Qed.

Lemma maxTime_ge_init t ts : (t <= maxTime t ts)%Z.
Proof.
  unfold maxTime. revert t. induction ts as [|u ts IH]; intros t; simpl; [lia|].
  specialize (IH (Z.max t u)). lia.
Qed.

Lemma maxTime_ge_In t ts u : In u ts -> (u <= maxTime t ts)%Z.
Proof.
  unfold maxTime. revert t.
  induction ts as [|v ts IH]; intros t H; [destruct H|].
  destruct H as [H|H]; simpl.
  - subst v. pose proof (maxTime_ge_init (Z.max t u) ts) as G.
    unfold maxTime in G. lia.
  - apply IH, H.
Qed.

Lemma counted_Path files st : Path (counted env files st) = Path st.
Proof.
  unfold counted. revert st.
  induction files as [|f files IH]; intros st; simpl; [reflexivity|].
  rewrite IH, val_countEntry. cbv zeta.
  destruct (audioName env f); reflexivity.
Qed.

End LoadDir.

(** ** The shape of a walk *)

Section Walk.

Variable env : Env.

Lemma In_sent s tr : In s (sent tr) <-> In (EvSend s) tr.
Proof.
  induction tr as [|e tr IH]; simpl; [tauto|].
  destruct e; simpl; rewrite IH; split; intros H;
    try (right; exact H); try (destruct H as [H|H]; [discriminate H|exact H]).
  - destruct H as [H|H]; [left; congruence | right; exact H].
  - destruct H as [H|H]; [left; congruence | right; exact H].
Qed.

Lemma walkChildren_cons (walk : string -> M outcome) c cs :
  walkChildren walk (c :: cs) =
    bind (walk c) (fun r =>
      match r with
      | Returned None => walkChildren walk cs
      | _ => ret r
      end).
Proof. reflexivity. Qed.

Lemma walkChildren_ok (walk : string -> M outcome) cs :
  val (walkChildren walk cs) = Returned None ->
  (forall c, In c cs -> val (walk c) = Returned None) /\
  trace (walkChildren walk cs) = flat_map (fun c => trace (walk c)) cs.
Proof.
  induction cs as [|c cs IH]; intros H.
  - split; [intros c []|reflexivity].
  - rewrite walkChildren_cons in *. rewrite val_bind in H. rewrite trace_bind.
    destruct (val (walk c)) as [[e|]|] eqn:E; try discriminate H.
    destruct (IH H) as [H1 H2]. split.
    + intros c' [<-|Hc]; [exact E | apply H1, Hc].
    + simpl. rewrite H2. reflexivity.
Qed.

Lemma walkChildren_In (walk : string -> M outcome) cs e :
  In e (trace (walkChildren walk cs)) ->
  exists c, In c cs /\ In e (trace (walk c)).
Proof.
  induction cs as [|c cs IH]; intros H; [destruct H|].
  rewrite walkChildren_cons, trace_bind in H.
  apply in_app_or in H. destruct H as [H|H].
  - exists c. split; [left; reflexivity | exact H].
  - destruct (val (walk c)) as [[e'|]|]; try (destruct H).
    destruct (IH H) as [c' [Hc He]]. exists c'. split; [right|]; assumption.
Qed.

Lemma walkChildren_fail (walk : string -> M outcome) cs :
  val (walkChildren walk cs) <> Returned None ->
  exists c, In c cs /\ val (walk c) = val (walkChildren walk cs).
Proof.
  induction cs as [|c cs IH]; intros H.
  - exfalso. apply H. reflexivity.
  - rewrite walkChildren_cons, val_bind in *.
    destruct (val (walk c)) as [[e|]|] eqn:E.
    + exists c. split; [left; reflexivity | exact E].
    + destruct (IH H) as [c' [Hc He]]. exists c'. split; [right|]; assumption.
    + exists c. split; [left; reflexivity | exact E].
Qed.

Lemma walkChildren_ext {X} (P : list event -> list X)
    (w1 w2 : string -> M outcome) cs :
  (forall t1 t2, P (t1 ++ t2) = P t1 ++ P t2) ->
  (forall c, In c cs ->
     val (w1 c) = val (w2 c) /\ P (trace (w1 c)) = P (trace (w2 c))) ->
  val (walkChildren w1 cs) = val (walkChildren w2 cs) /\
  P (trace (walkChildren w1 cs)) = P (trace (walkChildren w2 cs)).
Proof.
  intros HP. induction cs as [|c cs IH]; intros H; [split; reflexivity|].
  rewrite !walkChildren_cons, !val_bind, !trace_bind, !HP.
  destruct (H c (or_introl eq_refl)) as [Hv Hs]. rewrite Hv, Hs.
  destruct (val (w2 c)) as [[e|]|]; try (split; reflexivity).
  destruct IH as [IHv IHs]; [intros c' Hc'; apply H; right; exact Hc'|].
  rewrite IHv, IHs. split; reflexivity.
Qed.

Lemma loadErr_ctx ctx d : snd (val (loadDir env ctx d)) = loadErr env d.
Proof. unfold loadErr. rewrite val_loadDir_ctx. reflexivity. Qed.

Lemma walkFolder_S fuel ctx root cur :
  walkFolder env (S fuel) ctx root cur =
    bind (loadDir env ctx cur) (fun l =>
      let '(children, stats, err) := l in
      match err with
      | Some e => ret (Returned (Some e))
      | None =>
          bind (walkChildren (walkFolder env fuel ctx root) children) (fun r =>
            match r with
            | Returned None =>
                bind (log_Trace ctx "Found directory") (fun _ =>
                bind (emit (EvSend (set_Path (Clean env cur) stats))) (fun _ =>
                ret (Returned None)))
            | _ => ret r
            end)
      end).
Proof. reflexivity. Qed.

Lemma walkFolder_S_err fuel ctx root cur e :
  loadErr env cur = Some e ->
  walkFolder env (S fuel) ctx root cur =
    (trace (loadDir env ctx cur), Returned (Some e)).
Proof.
  unfold loadErr. rewrite <- (val_loadDir_ctx env ctx cur).
  rewrite walkFolder_S.
  generalize (loadDir env ctx cur). intros [tr0 [[cs st] err]].
  unfold bind, val, trace. simpl. intros ->. simpl.
  rewrite app_nil_r. reflexivity.
Qed.

Lemma walkFolder_S_ok fuel ctx root cur :
  loadErr env cur = None ->
  let W := walkChildren (walkFolder env fuel ctx root) (subdirs env cur) in
  walkFolder env (S fuel) ctx root cur =
    (trace (loadDir env ctx cur) ++ trace W ++
       match val W with
       | Returned None =>
           [EvLog (Some ctx) LevelTrace "Found directory";
            EvSend (recordOf env cur)]
       | _ => []
       end,
     val W).
Proof.
  intros H. unfold subdirs, recordOf. rewrite H. revert H.
  unfold loadErr. rewrite <- (val_loadDir_ctx env ctx cur).
  rewrite walkFolder_S.
  generalize (loadDir env ctx cur). intros [tr0 [[cs st] err]].
  unfold bind, val, trace. simpl. intros ->. simpl.
  destruct (walkChildren (walkFolder env fuel ctx root) cs) as [tw [[e|]|]];
    simpl; rewrite ?app_nil_r; reflexivity.
Qed.

Lemma walkFolder_cases fuel ctx root cur :
  (exists e, loadErr env cur = Some e /\
     trace (walkFolder env (S fuel) ctx root cur) = trace (loadDir env ctx cur) /\
     val (walkFolder env (S fuel) ctx root cur) = Returned (Some e)) \/
  (loadErr env cur = None /\
     trace (walkFolder env (S fuel) ctx root cur) =
       trace (loadDir env ctx cur) ++
       trace (walkChildren (walkFolder env fuel ctx root) (subdirs env cur)) ++
       match val (walkChildren (walkFolder env fuel ctx root) (subdirs env cur)) with
       | Returned None =>
           [EvLog (Some ctx) LevelTrace "Found directory";
            EvSend (recordOf env cur)]
       | _ => []
       end /\
     val (walkFolder env (S fuel) ctx root cur) =
       val (walkChildren (walkFolder env fuel ctx root) (subdirs env cur))).
Proof.
  destruct (loadErr env cur) as [e|] eqn:E.
  - left. exists e. split; [reflexivity|].
    rewrite (walkFolder_S_err fuel ctx root cur e E). split; reflexivity.
  - right. split; [reflexivity|].
    rewrite (walkFolder_S_ok fuel ctx root cur E). split; reflexivity.
Qed.

Lemma desc_inv a d :
  desc env a d -> exists c, In c (subdirs env a) /\ reach env c d.
Proof.
  intros H. inversion H; subst.
  - exists d. split; [assumption | left; reflexivity].
  - exists c. split; [assumption | right; assumption].
Qed.

Lemma reach_step a c d :
  In c (subdirs env a) -> reach env c d -> desc env a d.
Proof.
  intros Hc [<-|H]; [apply desc_child | eapply desc_step; eauto]; assumption.
Qed.

Lemma desc_trans a b c : desc env a b -> desc env b c -> desc env a c.
Proof.
  intros H. revert c. induction H; intros c' H'.
  - eapply desc_step; eauto.
  - eapply desc_step; eauto.
Qed.

Lemma reach_trans a b c : reach env a b -> reach env b c -> reach env a c.
Proof.
  intros [<-|H1] H2; [exact H2|].
  destruct H2 as [<-|H2]; right; [exact H1 | eapply desc_trans; eauto].
Qed.

Lemma not_In_send_loadDir ctx d s : ~ In (EvSend s) (trace (loadDir env ctx d)).
Proof. intros H. apply (offChannel_loadDir env ctx d) in H. exact H. Qed.

(** Every record on the channel belongs to a directory of the walk whose
    own walk returned [nil]. *)
Lemma sent_from_completed fuel ctx root cur s :
  In s (sent (trace (walkFolder env fuel ctx root cur))) ->
  exists p fuel', reach env cur p /\ s = recordOf env p /\
    loadErr env p = None /\
    val (walkFolder env fuel' ctx root p) = Returned None.
Proof.
  revert cur. induction fuel as [|fuel IH]; intros cur H; [destruct H|].
  apply In_sent in H.
  destruct (walkFolder_cases fuel ctx root cur) as [[e [He [Ht Hv]]]|[He [Ht Hv]]];
    rewrite Ht in H.
  - exfalso. exact (not_In_send_loadDir ctx cur s H).
  - apply in_app_or in H. destruct H as [H|H];
      [exfalso; exact (not_In_send_loadDir ctx cur s H)|].
    apply in_app_or in H. destruct H as [H|H].
    + apply walkChildren_In in H. destruct H as [c [Hc H]].
      apply In_sent in H. destruct (IH c H) as [p [fuel' [Hr Hs]]].
      exists p, fuel'. split; [right; eapply reach_step; eauto | exact Hs].
    + destruct (val (walkChildren _ _)) as [[e|]|] eqn:E;
        [destruct H| |destruct H].
      destruct H as [H|[H|[]]]; [discriminate H|].
      exists cur, (S fuel). split; [left; reflexivity|].
      split; [congruence|]. split; [exact He|]. exact Hv.
Qed.

(** When a walk returns [nil], every directory under it was loaded, walked
    to the end and reported. *)
Lemma completed_all fuel ctx root cur :
  val (walkFolder env fuel ctx root cur) = Returned None ->
  forall p, reach env cur p ->
    loadErr env p = None /\
    In (recordOf env p) (sent (trace (walkFolder env fuel ctx root cur))) /\
    exists fuel', val (walkFolder env fuel' ctx root p) = Returned None.
Proof.
  revert cur. induction fuel as [|fuel IH]; intros cur H p Hp; [discriminate H|].
  destruct (walkFolder_cases fuel ctx root cur) as [[e [He [Ht Hv]]]|[He [Ht Hv]]];
    [rewrite Hv in H; discriminate H|].
  assert (HW := H). rewrite Hv in HW.
  destruct (walkChildren_ok _ _ HW) as [Hall Htr].
  rewrite Ht, HW, !sent_app.
  destruct Hp as [<-|Hp].
  - split; [exact He|]. split.
    + apply in_or_app. right. apply in_or_app. right. simpl. left. reflexivity.
    + exists (S fuel). exact H.
  - apply desc_inv in Hp. destruct Hp as [c [Hc Hp]].
    destruct (IH c (Hall c Hc) p Hp) as [H1 [H2 H3]].
    split; [exact H1|]. split; [|exact H3].
    apply in_or_app. right. apply in_or_app. left.
    apply In_sent. apply In_sent in H2. rewrite Htr.
    apply in_flat_map. exists c. split; assumption.
Qed.

Lemma walkChildren_more (w1 w2 : string -> M outcome) cs :
  (forall c, val (w1 c) <> OutOfFuel -> w2 c = w1 c) ->
  val (walkChildren w1 cs) <> OutOfFuel ->
  walkChildren w2 cs = walkChildren w1 cs.
Proof.
  intros Hw. induction cs as [|c cs IH]; intros H; [reflexivity|].
  rewrite !walkChildren_cons in *. rewrite val_bind in H.
  assert (Hc : val (w1 c) <> OutOfFuel).
  { intros E. rewrite E in H. apply H. reflexivity. }
  rewrite (Hw c Hc).
  destruct (w1 c) as [t [[e|]|]] eqn:Ec; try reflexivity.
  unfold bind, val in *. simpl in *. rewrite (IH H). reflexivity.
Qed.

Lemma M_eq {A} (a b : M A) : trace a = trace b -> val a = val b -> a = b.
Proof. destruct a, b. unfold trace, val. simpl. intros -> ->. reflexivity. Qed.

(** Fuel beyond what a walk needs changes nothing. *)
Lemma walkFolder_more_fuel fuel ctx root cur :
  val (walkFolder env fuel ctx root cur) <> OutOfFuel ->
  walkFolder env (S fuel) ctx root cur = walkFolder env fuel ctx root cur.
Proof.
  revert cur. induction fuel as [|fuel IH]; intros cur H.
  - exfalso. apply H. reflexivity.
  - destruct (walkFolder_cases fuel ctx root cur)
      as [[e [He [Ht Hv]]]|[He [Ht Hv]]];
      destruct (walkFolder_cases (S fuel) ctx root cur)
        as [[e' [He' [Ht' Hv']]]|[He' [Ht' Hv']]]; try congruence.
    + apply M_eq; congruence.
    + rewrite Hv in H.
      assert (E := walkChildren_more (walkFolder env fuel ctx root)
                     (walkFolder env (S fuel) ctx root) (subdirs env cur) IH H).
      rewrite E in Ht', Hv'. apply M_eq; congruence.
Qed.

Lemma walkFolder_enough_fuel fuel fuel' ctx root cur :
  val (walkFolder env fuel ctx root cur) <> OutOfFuel ->
  fuel <= fuel' ->
  walkFolder env fuel' ctx root cur = walkFolder env fuel ctx root cur.
Proof.
  intros H Hle. induction Hle as [|m Hle IH]; [reflexivity|].
  rewrite walkFolder_more_fuel; [exact IH|]. rewrite IH. exact H.
Qed.

End Walk.

(** ** Order of the records *)

Section Order.

Variable env : Env.

Lemma before_app_l {A} (x y : A) l m : before x y l -> before x y (l ++ m).
Proof.
  intros [i [j [Hij [Hi Hj]]]]. exists i, j. split; [exact Hij|].
  split; rewrite nth_error_app1; try assumption;
    apply nth_error_Some; congruence.
Qed.

Lemma before_app_r {A} (x y : A) l m : before x y m -> before x y (l ++ m).
Proof.
  intros [i [j [Hij [Hi Hj]]]]. exists (List.length l + i), (List.length l + j).
  split; [lia|].
  split; rewrite nth_error_app2 by lia.
  - replace (List.length l + i - List.length l) with i by lia. exact Hi.
  - replace (List.length l + j - List.length l) with j by lia. exact Hj.
Qed.

Lemma before_last {A} (x y : A) l : In x l -> before x y (l ++ [y]).
Proof.
  intros H. apply In_nth_error in H. destruct H as [i Hi].
  assert (Hlt : i < List.length l) by (apply nth_error_Some; congruence).
  exists i, (List.length l). split; [exact Hlt|]. split.
  - rewrite nth_error_app1 by exact Hlt. exact Hi.
  - rewrite nth_error_app2 by lia. rewrite Nat.sub_diag. reflexivity.
Qed.

Lemma sent_flat_map_split (w : string -> M outcome) cs c :
  In c cs ->
  exists l1 l2,
    sent (flat_map (fun c => trace (w c)) cs) = l1 ++ sent (trace (w c)) ++ l2.
Proof.
  intros H. apply in_split in H. destruct H as [cs1 [cs2 ->]].
  rewrite flat_map_app. simpl. rewrite !sent_app.
  eexists _, _. reflexivity.
Qed.

(** In the records of a walk that returned [nil], a directory stands before
    each directory it lies under. *)
Lemma descendants_first fuel ctx root cur :
  val (walkFolder env fuel ctx root cur) = Returned None ->
  forall A D, reach env cur A -> desc env A D ->
    before (recordOf env D) (recordOf env A)
      (sent (trace (walkFolder env fuel ctx root cur))).
Proof.
  revert cur. induction fuel as [|fuel IH]; intros cur H A D HA HD;
    [discriminate H|].
  destruct (walkFolder_cases env fuel ctx root cur)
    as [[e [He [Ht Hv]]]|[He [Ht Hv]]]; [rewrite Hv in H; discriminate H|].
  assert (HW := H). rewrite Hv in HW.
  destruct (walkChildren_ok _ _ HW) as [Hall Htr].
  rewrite Ht, HW, !sent_app.
  rewrite (offChannel_sent _ (offChannel_loadDir env ctx cur)). simpl app.
  change (sent [EvLog (Some ctx) LevelTrace "Found directory";
                EvSend (recordOf env cur)]) with [recordOf env cur].
  rewrite Htr.
  destruct HA as [<-|HA].
  - apply before_last.
    apply desc_inv in HD. destruct HD as [c [Hc HD]].
    destruct (completed_all env fuel ctx root c (Hall c Hc) D HD) as [_ [Hin _]].
    destruct (sent_flat_map_split (walkFolder env fuel ctx root) _ c Hc)
      as [l1 [l2 ->]].
    apply in_or_app. right. apply in_or_app. left. exact Hin.
  - apply before_app_l.
    apply desc_inv in HA. destruct HA as [c [Hc HA]].
    destruct (sent_flat_map_split (walkFolder env fuel ctx root) _ c Hc)
      as [l1 [l2 ->]].
    apply before_app_r, before_app_l.
    apply (IH c (Hall c Hc) A D HA HD).
Qed.

Lemma own_record_last fuel ctx root cur :
  val (walkFolder env fuel ctx root cur) = Returned None ->
  exists l, sent (trace (walkFolder env fuel ctx root cur)) = l ++ [recordOf env cur].
Proof.
  destruct fuel as [|fuel]; intros H; [discriminate H|].
  destruct (walkFolder_cases env fuel ctx root cur)
    as [[e [He [Ht Hv]]]|[He [Ht Hv]]]; [rewrite Hv in H; discriminate H|].
  rewrite Hv in H. rewrite Ht, H, !sent_app.
  eexists. rewrite app_assoc. reflexivity.
Qed.

Lemma walkDirTree_eq fuel ctx root :
  trace (walkDirTree env fuel ctx root) =
    trace (walkFolder env fuel ctx root root) ++
    match val (walkFolder env fuel ctx root root) with
    | Returned (Some _) =>
        [EvLog (Some ctx) LevelError "Error loading directory tree"; EvClose]
    | Returned None => [EvClose]
    | OutOfFuel => []
    end /\
  val (walkDirTree env fuel ctx root) = val (walkFolder env fuel ctx root root).
Proof.
  unfold walkDirTree. rewrite trace_bind, val_bind.
  destruct (val (walkFolder env fuel ctx root root)) as [[e|]|];
    split; reflexivity.
Qed.

Lemma sent_walkDirTree fuel ctx root :
  sent (trace (walkDirTree env fuel ctx root)) =
    sent (trace (walkFolder env fuel ctx root root)).
Proof.
  destruct (walkDirTree_eq fuel ctx root) as [-> _]. rewrite sent_app.
  destruct (val (walkFolder env fuel ctx root root)) as [[e|]|];
    simpl; apply app_nil_r.
Qed.

Lemma Path_recordOf d : Path (recordOf env d) = Clean env d.
Proof. reflexivity. Qed.

(** C1. A walk that completes without error sends its records bottom-up:
    for directories [A] and [D] of the walk, [D] lying under [A], the record
    of [D] stands at an earlier place than the record of [A], and the record
    of the root is the last one.  Where no two records carry the same path,
    any record with the path of [D] stands before any record with the path
    of [A]. *)
Theorem walk_bottom_up fuel ctx root tr :
  walkDirTree env fuel ctx root = (tr, Returned None) ->
  (exists l, sent tr = l ++ [recordOf env root]) /\
  (forall A D, reach env root A -> desc env A D ->
     before (recordOf env D) (recordOf env A) (sent tr)) /\
  (NoDup (map Path (sent tr)) ->
   forall A D, reach env root A -> desc env A D ->
   forall i j sD sA,
     nth_error (sent tr) i = Some sD -> Path sD = Clean env D ->
     nth_error (sent tr) j = Some sA -> Path sA = Clean env A ->
     i < j).
Proof.
  intros H.
  assert (Hs : sent tr = sent (trace (walkFolder env fuel ctx root root))).
  { rewrite <- sent_walkDirTree, H. reflexivity. }
  assert (Hv : val (walkFolder env fuel ctx root root) = Returned None).
  { destruct (walkDirTree_eq fuel ctx root) as [_ <-]. rewrite H. reflexivity. }
  rewrite Hs.
  assert (Hord := descendants_first fuel ctx root root Hv).
  split; [apply own_record_last, Hv|]. split; [exact Hord|].
  intros Hnd A D HA HD i j sD sA Hi HpD Hj HpA.
  destruct (Hord A D HA HD) as [i0 [j0 [Hlt [Hi0 Hj0]]]].
  assert (Hpath : forall k s, nth_error (sent (trace (walkFolder env fuel ctx root root))) k = Some s ->
            nth_error (map Path (sent (trace (walkFolder env fuel ctx root root)))) k = Some (Path s)).
  { intros k s Hk. rewrite nth_error_map, Hk. reflexivity. }
  assert (Ei : i = i0).
  { apply (proj1 (NoDup_nth_error _) Hnd).
    - rewrite length_map. apply nth_error_Some. congruence.
    - rewrite (Hpath _ _ Hi), (Hpath _ _ Hi0), HpD. reflexivity. }
  assert (Ej : j = j0).
  { apply (proj1 (NoDup_nth_error _) Hnd).
    - rewrite length_map. apply nth_error_Some. congruence.
    - rewrite (Hpath _ _ Hj), (Hpath _ _ Hj0), HpA. reflexivity. }
  lia.
Qed.

End Order.

(** ** Errors, the channel and the context *)

Section Abort.

Variable env : Env.

Lemma error_origin fuel ctx root cur e :
  val (walkFolder env fuel ctx root cur) = Returned (Some e) ->
  exists F, reach env cur F /\ loadErr env F = Some e.
Proof.
  revert cur. induction fuel as [|fuel IH]; intros cur H; [discriminate H|].
  destruct (walkFolder_cases env fuel ctx root cur)
    as [[e' [He [Ht Hv]]]|[He [Ht Hv]]]; rewrite Hv in H.
  - exists cur. split; [left; reflexivity | congruence].
  - destruct (walkChildren_fail (walkFolder env fuel ctx root) (subdirs env cur))
      as [c [Hc Hval]]; [rewrite H; discriminate|].
    rewrite H in Hval. destruct (IH c Hval) as [F [HF HeF]].
    exists F. split; [right; eapply reach_step; eauto | exact HeF].
Qed.

Lemma closes_zero tr : ~ In EvClose tr -> closes tr = 0.
Proof.
  induction tr as [|e tr IH]; intros H; [reflexivity|].
  destruct e; simpl; try (apply IH; intros G; apply H; right; exact G).
  exfalso. apply H. left. reflexivity.
Qed.

Lemma walkFolder_no_close fuel ctx root cur :
  ~ In EvClose (trace (walkFolder env fuel ctx root cur)).
Proof.
  revert cur. induction fuel as [|fuel IH]; intros cur H; [destruct H|].
  assert (HL : ~ In EvClose (trace (loadDir env ctx cur))).
  { intros G. exact (offChannel_loadDir env ctx cur _ G). }
  destruct (walkFolder_cases env fuel ctx root cur)
    as [[e' [He [Ht Hv]]]|[He [Ht Hv]]]; rewrite Ht in H; [exact (HL H)|].
  apply in_app_or in H. destruct H as [H|H]; [exact (HL H)|].
  apply in_app_or in H. destruct H as [H|H].
  - apply walkChildren_In in H. destruct H as [c [_ H]]. exact (IH c H).
  - destruct (val (walkChildren _ _)) as [[e|]|]; [destruct H| |destruct H].
    destruct H as [H|[H|[]]]; discriminate H.
Qed.

Lemma closes_walkDirTree fuel ctx root :
  closes (trace (walkDirTree env fuel ctx root)) =
    match val (walkDirTree env fuel ctx root) with
    | Returned _ => 1
    | OutOfFuel => 0
    end.
Proof.
  destruct (walkDirTree_eq env fuel ctx root) as [-> ->].
  rewrite closes_app, (closes_zero _ (walkFolder_no_close fuel ctx root root)).
  destruct (val (walkFolder env fuel ctx root root)) as [[e|]|]; reflexivity.
Qed.

Lemma close_is_last fuel ctx root r :
  val (walkDirTree env fuel ctx root) = Returned r ->
  exists tr', trace (walkDirTree env fuel ctx root) = tr' ++ [EvClose].
Proof.
  destruct (walkDirTree_eq env fuel ctx root) as [-> ->]. intros H. rewrite H.
  destruct r as [e|].
  - eexists (_ ++ [_]). rewrite <- app_assoc. reflexivity.
  - eexists. reflexivity.
Qed.


End Abort.

Section Cancellation.

Variable env : Env.

Lemma unlogged_loadDirEntry ctx ctx' dir f acc :
  unlogged (trace (loadDirEntry env ctx dir f acc)) =
  unlogged (trace (loadDirEntry env ctx' dir f acc)).
Proof.
  unfold loadDirEntry. destruct acc as [cs st]. cbv beta iota.
  rewrite !trace_bind, !unlogged_app.
  destruct (val (isDirOrSymlinkToDir env dir f)) as [isDir [e|]]; reflexivity.
Qed.

Lemma val_loadDirEntry_ctx ctx ctx' dir f acc :
  val (loadDirEntry env ctx dir f acc) = val (loadDirEntry env ctx' dir f acc).
Proof. destruct acc as [cs st]. rewrite !val_loadDirEntry. reflexivity. Qed.

Lemma unlogged_loadDirEntries ctx ctx' dir files acc :
  unlogged (trace (loadDirEntries env ctx dir files acc)) =
  unlogged (trace (loadDirEntries env ctx' dir files acc)).
Proof.
  revert acc. induction files as [|f files IH]; intros acc; [reflexivity|].
  simpl. rewrite !trace_bind, !unlogged_app.
  rewrite (unlogged_loadDirEntry ctx ctx'), (val_loadDirEntry_ctx ctx ctx').
  rewrite IH. reflexivity.
Qed.

Lemma val_loadDirEntries_ctx ctx ctx' dir files acc :
  val (loadDirEntries env ctx dir files acc) =
  val (loadDirEntries env ctx' dir files acc).
Proof. destruct acc as [cs st]. rewrite !val_loadDirEntries. reflexivity. Qed.

Lemma unlogged_loadDir ctx ctx' dir :
  unlogged (trace (loadDir env ctx dir)) = unlogged (trace (loadDir env ctx' dir)).
Proof.
  unfold loadDir. rewrite !trace_bind, !unlogged_app. f_equal.
  destruct (val (os_Stat env dir)) as [di|err]; [|reflexivity].
  cbv zeta. rewrite !trace_bind, !unlogged_app. f_equal.
  destruct (val (ioutil_ReadDir env dir)) as [files|err]; [|reflexivity].
  rewrite !trace_bind, !unlogged_app.
  rewrite (unlogged_loadDirEntries ctx ctx'). reflexivity.
Qed.

Lemma walkFolder_ctx fuel ctx ctx' root cur :
  val (walkFolder env fuel ctx root cur) = val (walkFolder env fuel ctx' root cur) /\
  unlogged (trace (walkFolder env fuel ctx root cur)) =
  unlogged (trace (walkFolder env fuel ctx' root cur)).
Proof.
  revert cur. induction fuel as [|fuel IH]; intros cur; [split; reflexivity|].
  destruct (walkChildren_ext unlogged (walkFolder env fuel ctx root)
              (walkFolder env fuel ctx' root) (subdirs env cur) unlogged_app)
    as [HWv HWt]; [intros c _; apply IH|].
  destruct (walkFolder_cases env fuel ctx root cur)
    as [[e [He [Ht Hv]]]|[He [Ht Hv]]];
    destruct (walkFolder_cases env fuel ctx' root cur)
      as [[e' [He' [Ht' Hv']]]|[He' [Ht' Hv']]]; try congruence.
  - rewrite Ht, Ht', Hv, Hv'.
    split; [congruence | apply unlogged_loadDir].
  - rewrite HWv in Ht. rewrite Ht, Ht', Hv, Hv'.
    split; [exact HWv|].
    rewrite !unlogged_app, HWt, (unlogged_loadDir ctx ctx').
    destruct (val (walkChildren (walkFolder env fuel ctx' root) (subdirs env cur)))
      as [[e|]|]; reflexivity.
Qed.

(** C3, as the walker has it.  The walker never looks at the cancellation
    token: whatever its state, the walk makes the same calls, sends the same
    records and ends the same way (only the context handed to the logger
    differs); and a walk that returns has closed the channel once. *)
Theorem token_never_consulted fuel ctx ctx' root :
  unlogged (trace (walkDirTree env fuel ctx root)) =
  unlogged (trace (walkDirTree env fuel ctx' root)) /\
  val (walkDirTree env fuel ctx root) = val (walkDirTree env fuel ctx' root) /\
  closes (trace (walkDirTree env fuel ctx root)) =
    match val (walkDirTree env fuel ctx root) with
    | Returned _ => 1
    | OutOfFuel => 0
    end.
Proof.
  destruct (walkFolder_ctx fuel ctx ctx' root root) as [Hv Ht].
  split; [|split; [|apply closes_walkDirTree]].
  - destruct (walkDirTree_eq env fuel ctx root) as [-> _].
    destruct (walkDirTree_eq env fuel ctx' root) as [-> _].
    rewrite !unlogged_app, Ht, Hv.
    destruct (val (walkFolder env fuel ctx' root root)) as [[e|]|]; reflexivity.
  - destruct (walkDirTree_eq env fuel ctx root) as [_ ->].
    destruct (walkDirTree_eq env fuel ctx' root) as [_ ->]. exact Hv.
Qed.

End Cancellation.

(** C3, as stated, fails: with the token signaled before the walk starts, the
    walk of the music folder still lists its subdirectory [a]. *)
Lemma signaled_walk_still_lists : ~ stopsWhenSignaled musicFS.
Proof.
  intros H.
  assert (G : "/music/a" = "/music").
  { apply (H 3 Canceled "/music" "/music/a" eq_refl).
    vm_compute. repeat (first [left; reflexivity | right]). }
  discriminate G.
Qed.

(** The walk of the music folder: [a], then the folder itself. *)
Lemma walk_bottom_up_witness :
  walkDirTree musicFS 3 Background "/music" =
    (trace (walkDirTree musicFS 3 Background "/music"), Returned None) /\
  before (recordOf musicFS "/music/a") (recordOf musicFS "/music")
    (sent (trace (walkDirTree musicFS 3 Background "/music"))) /\
  (forall i j sD sA,
     nth_error (sent (trace (walkDirTree musicFS 3 Background "/music"))) i = Some sD ->
     Path sD = "/music/a" ->
     nth_error (sent (trace (walkDirTree musicFS 3 Background "/music"))) j = Some sA ->
     Path sA = "/music" ->
     i < j).
Proof.
  assert (H : walkDirTree musicFS 3 Background "/music" =
                (trace (walkDirTree musicFS 3 Background "/music"), Returned None))
    by (vm_compute; reflexivity).
  assert (HA : reach musicFS "/music" "/music") by (left; reflexivity).
  assert (HD : desc musicFS "/music" "/music/a").
  { apply desc_child. vm_compute. left. reflexivity. }
  assert (Hnd : NoDup (map Path (sent (trace (walkDirTree musicFS 3 Background "/music"))))).
  { vm_compute. constructor; [intros [E|[]]; discriminate E|].
    constructor; [intros []|constructor]. }
  destruct (walk_bottom_up musicFS 3 Background "/music" _ H) as [_ [Hord Hall]].
  split; [exact H|]. split; [exact (Hord _ _ HA HD)|].
  exact (Hall Hnd _ _ HA HD).
Defined.


(** ** The statistics of a record *)

Section Stats.

Variable env : Env.

Lemma isLeaf_isCounted dir f : isLeaf env dir f = isCounted env dir f.
Proof.
  unfold isLeaf, isCounted, isFileEntry, isCandidate, entryKind, passesPolicy.
  rewrite val_isDirIgnored, val_isDirReadable.
  destruct (val (isDirOrSymlinkToDir env dir f)) as [[|] [e|]]; simpl; try reflexivity.
  destruct (hiddenName f); simpl; [reflexivity|].
  destruct (hasSkipFile env dir f); simpl; [reflexivity|].
  destruct (readable env dir f); reflexivity.
Qed.

Lemma emitted_record fuel ctx root s :
  In s (sent (trace (walkDirTree env fuel ctx root))) ->
  exists p, reach env root p /\ loadErr env p = None /\ s = recordOf env p.
Proof.
  rewrite sent_walkDirTree. intros H.
  destruct (sent_from_completed env fuel ctx root root s H)
    as [p [fuel' [Hp [Hs [He _]]]]].
  exists p. repeat split; assumption.
Qed.

Lemma loaded_directory p :
  loadErr env p = None ->
  exists di,
    Stat env p = inl di /\ rawModTime env p = os.ModTime di /\
    ReadDir env p = inl (entriesOf env p) /\
    recordOf env p =
      set_Path (Clean env p)
        (counted env (countedEntries env p)
           (set_ModTime (os.ModTime di) zeroStats)) /\
    subdirs env p =
      map (fun f => Join env [p; os.Name f])
        (filter (isSubdir env p) (entriesOf env p)).
Proof.
  intros H. unfold subdirs, recordOf, rawModTime, countedEntries, entriesOf.
  rewrite H. unfold loadErr in H. revert H. rewrite val_loadDir.
  destruct (Stat env p) as [di|e]; [|discriminate].
  cbv zeta. destruct (ReadDir env p) as [files|e]; [|discriminate].
  intros _. exists di. simpl fst. simpl snd.
  rewrite (filter_ext _ _ (isLeaf_isCounted p)).
  repeat split; reflexivity.
Qed.

Lemma counted_AudioFilesCount files st :
  (0 <= AudioFilesCount st < uint32_modulus)%Z ->
  AudioFilesCount (counted env files st) =
    ((AudioFilesCount st + Z.of_nat (List.length (filter (audioName env) files)))
       mod uint32_modulus)%Z.
Proof.
  unfold counted. revert st.
  induction files as [|f files IH]; intros st Hr; simpl.
  - rewrite Z.add_0_r, Z.mod_small; [reflexivity | exact Hr].
  - rewrite val_countEntry. cbv zeta.
    destruct (audioName env f) eqn:Ha.
    + rewrite IH; simpl AudioFilesCount.
      * unfold uint32_incr. rewrite Zplus_mod_idemp_l. f_equal.
        simpl List.length. lia.
      * unfold uint32_incr. apply Z.mod_pos_bound. reflexivity.
    + rewrite IH; simpl AudioFilesCount; [reflexivity | exact Hr].
Qed.

Lemma counted_HasPlaylist files st :
  HasPlaylist (counted env files st) =
    HasPlaylist st ||
    existsb (fun f => negb (audioName env f) && IsPlaylist env (os.Name f)) files.
Proof.
  unfold counted. revert st.
  induction files as [|f files IH]; intros st; simpl.
  - rewrite orb_false_r. reflexivity.
  - rewrite IH, val_countEntry. cbv zeta.
    destruct (audioName env f); simpl; [reflexivity|].
    rewrite orb_assoc. reflexivity.
Qed.

Lemma counted_HasImages files st :
  HasImages (counted env files st) =
    HasImages st ||
    existsb (fun f => negb (audioName env f) && IsImageFile env (os.Name f)) files.
Proof.
  unfold counted. revert st.
  induction files as [|f files IH]; intros st; simpl.
  - rewrite orb_false_r. reflexivity.
  - rewrite IH, val_countEntry. cbv zeta.
    destruct (audioName env f); simpl; [reflexivity|].
    rewrite orb_assoc. reflexivity.
Qed.

Lemma trace_countEntry_audio f st :
  audioName env f = true ->
  trace (countEntry env f st) = [EvIsAudioFile (os.Name f)].
Proof.
  unfold audioName, countEntry, utils_IsAudioFile. cbv zeta. intros H.
  rewrite !trace_bind, !val_bind. unfold ret at 1, val at 1. simpl snd.
  rewrite H. reflexivity.
Qed.

(** C4, as the walker has it.  The modification time of every record sent
    is the latest of the directory's own modification time and those of its
    counted entries: the file entries and the directory entries the policy
    excludes.  (Entries recursed into and links that do not resolve stay
    out.) *)
Theorem record_modTime fuel ctx root s :
  In s (sent (trace (walkDirTree env fuel ctx root))) ->
  exists p, reach env root p /\ Path s = Clean env p /\
    ModTime s =
      maxTime (rawModTime env p) (map os.ModTime (countedEntries env p)).
Proof.
  intros H. destruct (emitted_record fuel ctx root s H) as [p [Hp [He ->]]].
  exists p. split; [exact Hp|]. split; [reflexivity|].
  destruct (loaded_directory p He) as [di [_ [Hraw [_ [-> _]]]]].
  simpl ModTime. rewrite counted_ModTime, Hraw. reflexivity.
Qed.

(** C5, as the walker has it.  In every record sent, the audio count is the
    number (as a [uint32]) of counted entries of the directory itself, file
    entries and excluded directory entries alike, whose name passes the
    audio test; the playlist and image flags are the disjunction of the
    tests over the counted entries whose name is not an audio name; and an
    entry with an audio name is tested for nothing else. *)
Theorem record_audio_count fuel ctx root s :
  In s (sent (trace (walkDirTree env fuel ctx root))) ->
  exists p, reach env root p /\ Path s = Clean env p /\
    AudioFilesCount s =
      (Z.of_nat (List.length (filter (audioName env) (countedEntries env p)))
         mod uint32_modulus)%Z /\
    HasPlaylist s =
      existsb (fun f => negb (audioName env f) && IsPlaylist env (os.Name f))
        (countedEntries env p) /\
    HasImages s =
      existsb (fun f => negb (audioName env f) && IsImageFile env (os.Name f))
        (countedEntries env p) /\
    forall f st, audioName env f = true ->
      trace (countEntry env f st) = [EvIsAudioFile (os.Name f)].
Proof.
  intros H. destruct (emitted_record fuel ctx root s H) as [p [Hp [He ->]]].
  exists p. split; [exact Hp|]. split; [reflexivity|].
  destruct (loaded_directory p He) as [di [_ [_ [_ [-> _]]]]].
  simpl AudioFilesCount. simpl HasPlaylist. simpl HasImages.
  rewrite counted_AudioFilesCount, counted_HasPlaylist, counted_HasImages.
  - repeat split; try reflexivity. apply trace_countEntry_audio.
  - simpl. split; [lia | reflexivity].
Qed.

Lemma isFileEntry_isCounted dir f :
  isFileEntry env dir f = true -> isCounted env dir f = true.
Proof. unfold isCounted. intros ->. reflexivity. Qed.

(** C8. The modification time of every record sent is not earlier than the
    directory's own modification time, nor than the modification time of
    any file entry of the directory. *)
Theorem record_modTime_monotone fuel ctx root s :
  In s (sent (trace (walkDirTree env fuel ctx root))) ->
  exists p, reach env root p /\ Path s = Clean env p /\
    (rawModTime env p <= ModTime s)%Z /\
    forall f, In f (entriesOf env p) -> isFileEntry env p f = true ->
      (os.ModTime f <= ModTime s)%Z.
Proof.
  intros H. destruct (emitted_record fuel ctx root s H) as [p [Hp [He ->]]].
  exists p. split; [exact Hp|]. split; [reflexivity|].
  destruct (loaded_directory p He) as [di [_ [Hraw [_ [-> _]]]]].
  simpl ModTime. rewrite counted_ModTime, Hraw. simpl ModTime.
  split; [apply maxTime_ge_init|].
  intros f Hf Hfile. apply maxTime_ge_In, in_map.
  apply filter_In. split; [exact Hf | apply isFileEntry_isCounted, Hfile].
Qed.

End Stats.

(** C4, as stated, fails on the music folder: the hidden directory is newer
    than the folder and than its files, and the folder's record carries the
    hidden directory's modification time. *)
Lemma excluded_dir_raises_modTime : ~ modTimeFromFilesOnly musicFS.
Proof.
  intros H.
  specialize (H 3 Background "/music"
                (mkDirStats "/music" 100%Z true false 1%Z) "/music").
  assert (G : (100 = filesOnlyModTime musicFS "/music")%Z).
  { apply H; [vm_compute; right; left; reflexivity | reflexivity]. }
  vm_compute in G. discriminate G.
Qed.

(** C5, as stated, fails on the music folder: the excluded directory
    [live.mp3] is counted as an audio file of the folder, which has none. *)
Lemma excluded_dir_counts_as_audio : ~ audioCountFromFilesOnly musicFS.
Proof.
  intros H.
  specialize (H 3 Background "/music"
                (mkDirStats "/music" 100%Z true false 1%Z) "/music").
  assert (G : (1 = filesOnlyAudioCount musicFS "/music")%Z).
  { apply H; [vm_compute; right; left; reflexivity | reflexivity]. }
  vm_compute in G. discriminate G.
Qed.

(** ** The inclusion policy *)

Section Policy.

Variable env : Env.

Lemma trace_isDirIgnored dir f :
  trace (isDirIgnored env dir f) =
    if hiddenName f then []
    else [EvStat (Join env [dir; os.Name f; SkipScanFile env])].
Proof.
  unfold isDirIgnored, hiddenName.
  destruct (String.prefix "." (os.Name f)); [reflexivity|].
  rewrite trace_bind. unfold os_Stat at 1.
  destruct (val (os_Stat env _)); reflexivity.
Qed.

Lemma fs_calls_isDirReadable dir f :
  fs_calls (trace (isDirReadable env dir f)) =
    [EvIsDirReadable (Join env [dir; os.Name f])].
Proof.
  unfold isDirReadable, utils_IsDirReadable. cbv zeta.
  rewrite !trace_bind, !val_bind. unfold ret at 1, val at 1. simpl snd.
  destruct (IsDirReadable env _) as [[|] oe]; reflexivity.
Qed.

Lemma fs_calls_entryTrace_countEntry f st :
  fs_calls (trace (countEntry env f st)) = [].
Proof.
  unfold countEntry, utils_IsAudioFile, utils_IsPlaylist, utils_IsImageFile, orM.
  cbv zeta. rewrite !trace_bind, !val_bind, !fs_calls_app.
  unfold ret at 1, val at 1. simpl snd.
  destruct (IsAudioFile env (os.Name f)); [reflexivity|].
  rewrite !trace_bind, !fs_calls_app.
  match goal with |- context [if ?b then ret true else _] => destruct b end;
    rewrite ?trace_bind, ?fs_calls_app;
    match goal with |- context [if ?b then ret true else _] => destruct b end;
    reflexivity.
Qed.

Lemma fs_calls_candidate ctx dir f acc :
  isCandidate env dir f = true ->
  fs_calls (trace (loadDirEntry env ctx dir f acc)) =
    fs_calls (trace (isDirOrSymlinkToDir env dir f)) ++ policyCalls env dir f.
Proof.
  unfold isCandidate, loadDirEntry, policyCalls. destruct acc as [cs st].
  cbv beta iota. rewrite trace_bind, fs_calls_app.
  destruct (val (isDirOrSymlinkToDir env dir f)) as [[|] [e|]];
    try discriminate. intros _. f_equal.
  rewrite trace_bind, fs_calls_app. unfold andM at 1 3.
  rewrite val_bind, trace_bind, fs_calls_app.
  rewrite trace_isDirIgnored, val_isDirIgnored.
  destruct (hiddenName f); simpl orb.
  - unfold andM, negb. rewrite !val_ret. cbv iota.
    rewrite trace_bind, fs_calls_app, fs_calls_entryTrace_countEntry.
    reflexivity.
  - destruct (hasSkipFile env dir f); unfold andM, negb.
    + rewrite !val_ret. cbv iota.
      rewrite trace_bind, fs_calls_app, fs_calls_entryTrace_countEntry.
      reflexivity.
    + rewrite fs_calls_isDirReadable.
      destruct (val (isDirReadable env dir f)).
      * reflexivity.
      * rewrite trace_bind, fs_calls_app, fs_calls_entryTrace_countEntry.
        reflexivity.
Qed.

Lemma subdirs_included root a c :
  included env root a -> In c (subdirs env a) -> included env root c.
Proof.
  intros Ha Hc. destruct (loadErr env a) as [e|] eqn:E.
  - unfold subdirs in Hc. rewrite E in Hc. destruct Hc.
  - destruct (loaded_directory env a E) as [di [_ [_ [_ [_ Hsub]]]]].
    rewrite Hsub in Hc. apply in_map_iff in Hc. destruct Hc as [f [<- Hf]].
    apply filter_In in Hf. destruct Hf as [Hf Hs].
    rewrite isSubdir_policy in Hs. apply andb_prop in Hs.
    apply included_step; tauto.
Qed.

Lemma desc_included root a d :
  desc env a d -> included env root a -> included env root d.
Proof.
  intros H. induction H as [a c Hc|a c d Hc _ IH]; intros Ha.
  - eapply subdirs_included; eauto.
  - apply IH. eapply subdirs_included; eauto.
Qed.

Lemma reach_included root p : reach env root p -> included env root p.
Proof.
  intros [<-|H]; [constructor|].
  eapply desc_included; [exact H | constructor].
Qed.

Lemma ReadDir_walkFolder fuel ctx root cur p :
  In (EvReadDir p) (trace (walkFolder env fuel ctx root cur)) -> reach env cur p.
Proof.
  revert cur. induction fuel as [|fuel IH]; intros cur H; [destruct H|].
  destruct (walkFolder_cases env fuel ctx root cur)
    as [[e [He [Ht Hv]]]|[He [Ht Hv]]]; rewrite Ht in H.
  - left. symmetry. eapply ReadDir_loadDir; eauto.
  - apply in_app_or in H. destruct H as [H|H];
      [left; symmetry; eapply ReadDir_loadDir; eauto|].
    apply in_app_or in H. destruct H as [H|H].
    + apply walkChildren_In in H. destruct H as [c [Hc H]].
      right. eapply reach_step; eauto.
    + destruct (val (walkChildren _ _)) as [[e|]|]; [destruct H| |destruct H].
      destruct H as [H|[H|[]]]; discriminate H.
Qed.


End Policy.

(** ** Links that do not resolve *)

Section BrokenLinks.

Variable env : Env.

Lemma brokenLink_skipped dir f :
  isBrokenLink env dir f = true -> entryKind env dir f = Skipped.
Proof.
  unfold isBrokenLink, entryKind, isDirOrSymlinkToDir. intros H.
  apply andb_prop in H. destruct H as [H H3].
  apply andb_prop in H. destruct H as [H1 H2].
  destruct (os.IsDir f); [discriminate H1|].
  destruct (Z.land (os.Mode f) os.ModeSymlink =? 0)%Z; [discriminate H2|].
  rewrite val_bind. change (val (os_Stat env ?p)) with (Stat env p).
  destruct (Stat env (Join env [dir; os.Name f])); [discriminate H3|reflexivity].
Qed.

Variable dir : string.
Variables l1 l2 : list os.FileInfo.
Variable f : os.FileInfo.
Hypothesis listing : ReadDir env dir = inl (l1 ++ f :: l2).
Hypothesis broken : isBrokenLink env dir f = true.

Lemma val_loadDir_without ctx p :
  val (loadDir (withListing env dir (l1 ++ l2)) ctx p) = val (loadDir env ctx p).
Proof.
  rewrite !val_loadDir.
  change (Stat (withListing env dir (l1 ++ l2)) p) with (Stat env p).
  destruct (Stat env p) as [di|e]; [|reflexivity]. cbv zeta.
  change (ReadDir (withListing env dir (l1 ++ l2)) p) with
    (if String.eqb p dir then inl (l1 ++ l2) else ReadDir env p).
  destruct (String.eqb_spec p dir) as [->|Hne]; [|reflexivity].
  rewrite listing.
  change (isSubdir (withListing env dir (l1 ++ l2)) dir) with (isSubdir env dir).
  change (isLeaf (withListing env dir (l1 ++ l2)) dir) with (isLeaf env dir).
  change (Join (withListing env dir (l1 ++ l2))) with (Join env).
  change (counted (withListing env dir (l1 ++ l2))) with (counted env).
  assert (Hs : isSubdir env dir f = false)
    by (unfold isSubdir; rewrite (brokenLink_skipped dir f broken); reflexivity).
  assert (Hl : isLeaf env dir f = false)
    by (unfold isLeaf; rewrite (brokenLink_skipped dir f broken); reflexivity).
  rewrite !filter_app. cbn [filter]. rewrite Hs, Hl. reflexivity.
Qed.

Lemma walkFolder_without fuel ctx root cur :
  val (walkFolder env fuel ctx root cur) = val (walkFolder (withListing env dir (l1 ++ l2)) fuel ctx root cur) /\
  sent (trace (walkFolder env fuel ctx root cur)) =
  sent (trace (walkFolder (withListing env dir (l1 ++ l2)) fuel ctx root cur)).
Proof.
  revert cur. induction fuel as [|fuel IH]; intros cur; [split; reflexivity|].
  assert (Hl : forall p, val (loadDir (withListing env dir (l1 ++ l2)) Background p) = val (loadDir env Background p))
    by (intros p; apply val_loadDir_without).
  assert (Herr : loadErr (withListing env dir (l1 ++ l2)) cur = loadErr env cur)
    by (unfold loadErr; rewrite Hl; reflexivity).
  assert (Hsub : subdirs (withListing env dir (l1 ++ l2)) cur = subdirs env cur)
    by (unfold subdirs; rewrite Herr, Hl; reflexivity).
  assert (Hrec : recordOf (withListing env dir (l1 ++ l2)) cur = recordOf env cur)
    by (unfold recordOf; rewrite Hl; reflexivity).
  destruct (walkChildren_ext sent (walkFolder env fuel ctx root)
              (walkFolder (withListing env dir (l1 ++ l2)) fuel ctx root) (subdirs env cur) sent_app)
    as [HWv HWt]; [intros c _; apply IH|].
  destruct (walkFolder_cases env fuel ctx root cur)
    as [[e [He [Ht Hv]]]|[He [Ht Hv]]];
    destruct (walkFolder_cases (withListing env dir (l1 ++ l2)) fuel ctx root cur)
      as [[e' [He' [Ht' Hv']]]|[He' [Ht' Hv']]]; try congruence.
  - rewrite Ht, Ht', Hv, Hv'. split; [congruence|].
    rewrite !(offChannel_sent _ (offChannel_loadDir _ ctx cur)). reflexivity.
  - rewrite Hsub, Hrec in Ht'. rewrite Hsub in Hv'.
    rewrite HWv in Ht. rewrite Ht, Ht', Hv, Hv'.
    split; [exact HWv|].
    rewrite !sent_app, HWt.
    rewrite !(offChannel_sent _ (offChannel_loadDir _ ctx cur)). reflexivity.
Qed.


End BrokenLinks.

(** ** Excluded directories *)

Section Excluded.

Variable env : Env.

Lemma loadDirEntry_leaf_trace ctx dir f cs st :
  isLeaf env dir f = true ->
  exists pre,
    trace (loadDirEntry env ctx dir f (cs, st)) = pre ++ trace (countEntry env f st).
Proof.
  unfold isLeaf, entryKind, loadDirEntry. cbv beta iota.
  rewrite trace_bind.
  destruct (val (isDirOrSymlinkToDir env dir f)) as [isDir [e|]];
    [discriminate|].
  rewrite trace_bind.
  destruct isDir; unfold andM; simpl andb.
  - rewrite val_bind, trace_bind.
    destruct (val (isDirIgnored env dir f)); unfold negb; simpl andb.
    + intros _. rewrite val_ret. cbv iota. rewrite !trace_bind, !trace_ret, !app_nil_r.
      eexists. rewrite !app_assoc. reflexivity.
    + destruct (val (isDirReadable env dir f)); [discriminate|].
      intros _. rewrite !trace_bind, !trace_ret, !app_nil_r.
      eexists. rewrite !app_assoc. reflexivity.
  - intros _. rewrite val_ret. cbv iota. rewrite !trace_bind, !trace_ret, !app_nil_r.
    eexists. rewrite !app_assoc. reflexivity.
Qed.

Lemma countEntry_calls_audio f st :
  In (EvIsAudioFile (os.Name f)) (trace (countEntry env f st)).
Proof.
  unfold countEntry, utils_IsAudioFile. cbv zeta.
  rewrite !trace_bind. left. reflexivity.
Qed.

(** C9. A directory entry that the policy excludes is handled as a file
    entry of the same name and time would be: it is not recursed into, its
    modification time enters the maximum, its name is tested as an audio
    name, and it is counted as an audio file when the test passes, or else
    sets the playlist and image flags by the tests of its name. *)
Theorem excluded_dir_counted_as_leaf ctx dir f cs st :
  isCandidate env dir f = true ->
  passesPolicy env dir f = false ->
  val (loadDirEntry env ctx dir f (cs, st)) = (cs, val (countEntry env f st)) /\
  (exists pre,
     trace (loadDirEntry env ctx dir f (cs, st)) = pre ++ trace (countEntry env f st)) /\
  In (EvIsAudioFile (os.Name f)) (trace (loadDirEntry env ctx dir f (cs, st))) /\
  ModTime (val (countEntry env f st)) = Z.max (ModTime st) (os.ModTime f) /\
  (IsAudioFile env (os.Name f) = true ->
     AudioFilesCount (val (countEntry env f st)) = uint32_incr (AudioFilesCount st)) /\
  (IsAudioFile env (os.Name f) = false ->
     HasPlaylist (val (countEntry env f st)) =
       HasPlaylist st || IsPlaylist env (os.Name f) /\
     HasImages (val (countEntry env f st)) =
       HasImages st || IsImageFile env (os.Name f)) /\
  (forall g, isFileEntry env dir g = true ->
     os.Name g = os.Name f -> os.ModTime g = os.ModTime f ->
     val (loadDirEntry env ctx dir g (cs, st)) =
     val (loadDirEntry env ctx dir f (cs, st))).
Proof.
  intros Hc Hp.
  assert (Hl : isLeaf env dir f = true).
  { rewrite isLeaf_isCounted. unfold isCounted. rewrite Hc, Hp.
    apply orb_true_r. }
  assert (Hk : entryKind env dir f = Leaf).
  { unfold isLeaf in Hl. destruct (entryKind env dir f); try discriminate Hl.
    reflexivity. }
  assert (Hv : val (loadDirEntry env ctx dir f (cs, st)) =
                 (cs, val (countEntry env f st))).
  { rewrite val_loadDirEntry, Hk. reflexivity. }
  destruct (loadDirEntry_leaf_trace ctx dir f cs st Hl) as [pre Hpre].
  split; [exact Hv|]. split; [exists pre; exact Hpre|].
  split; [rewrite Hpre; apply in_or_app; right; apply countEntry_calls_audio|].
  rewrite val_countEntry. cbv zeta. unfold audioName.
  split; [destruct (IsAudioFile env (os.Name f)); reflexivity|].
  split; [intros ->; reflexivity|].
  split; [intros ->; split; reflexivity|].
  intros g Hg Hn Ht. rewrite Hv.
  assert (Hkg : entryKind env dir g = Leaf).
  { pose proof (isFileEntry_isCounted env dir g Hg) as G.
    rewrite <- isLeaf_isCounted in G. unfold isLeaf in G.
    destruct (entryKind env dir g); try discriminate G. reflexivity. }
  rewrite val_loadDirEntry, Hkg, !val_countEntry. cbv zeta.
  unfold audioName. rewrite Hn, Ht. reflexivity.
Qed.

End Excluded.

(** ** Termination *)

Section Termination.

Variable env : Env.

(** A walk that uses up its fuel has gone down a chain of that many
    directories. *)
Lemma out_of_fuel_chain fuel ctx root cur :
  val (walkFolder env fuel ctx root cur) = OutOfFuel ->
  exists ps, List.length ps = fuel /\ chain env cur ps.
Proof.
  revert cur. induction fuel as [|fuel IH]; intros cur H.
  - exists []. split; [reflexivity | exact I].
  - destruct (walkFolder_cases env fuel ctx root cur)
      as [[e [He [Ht Hv]]]|[He [Ht Hv]]]; rewrite Hv in H; [discriminate H|].
    destruct (walkChildren_fail (walkFolder env fuel ctx root) (subdirs env cur))
      as [c [Hc Hval]]; [rewrite H; discriminate|].
    rewrite H in Hval. destruct (IH c Hval) as [ps [Hlen Hch]].
    exists (c :: ps). split; [simpl; congruence | split; assumption].
Qed.

Lemma chain_desc a ps p : chain env a ps -> In p ps -> desc env a p.
Proof.
  revert a. induction ps as [|q ps IH]; intros a Hch Hin; [destruct Hin|].
  destruct Hch as [Hq Hch]. destruct Hin as [<-|Hin].
  - apply desc_child, Hq.
  - eapply desc_step; [exact Hq | apply IH; assumption].
Qed.

Lemma chain_cycle a ps :
  chain env a ps ->
  NoDup (a :: ps) \/ exists x, reach env a x /\ desc env x x.
Proof.
  revert a. induction ps as [|p ps IH]; intros a Hch.
  - left. constructor; [intros [] | constructor].
  - destruct Hch as [Hp Hch].
    destruct (IH p Hch) as [Hnd|[x [Hx Hcyc]]].
    + destruct (in_dec string_dec a (p :: ps)) as [Hin|Hnin].
      * right. exists a. split; [left; reflexivity|].
        apply (chain_desc a (p :: ps) a); [split; assumption | exact Hin].
      * left. constructor; assumption.
    + right. exists x. split; [right; eapply reach_step; eauto | exact Hcyc].
Qed.


End Termination.

(** *** The folder that links to itself *)

Lemma hasSuffix_app suffix p q :
  hasSuffix suffix q = true -> hasSuffix suffix (p ++ q) = true.
Proof.
  intros H. induction p as [|c p IH]; [exact H|].
  cbn [append hasSuffix].
  destruct (String.eqb (String c (p ++ q)) suffix); [reflexivity | exact IH].
Qed.

Lemma loop_not_skip_file p : hasSuffix "/.ndignore" (p ++ "/loop") = false.
Proof.
  induction p as [|c p IH]; [reflexivity|].
  cbn [append hasSuffix]. rewrite IH.
  destruct (String.eqb_spec (String c (p ++ "/loop")) "/.ndignore") as [E|_];
    [|reflexivity].
  exfalso. injection E as _ E.
  do 9 (destruct p as [|? p]; simpl in E; [discriminate E|]; injection E as _ E).
  destruct p; discriminate E.
Qed.

Lemma loopPath_not_skip_file n : hasSuffix "/.ndignore" (loopPath n) = false.
Proof. destruct n; [reflexivity | apply loop_not_skip_file]. Qed.

Lemma loopPath_not_empty n : String.eqb (loopPath n) "" = false.
Proof.
  apply String.eqb_neq. destruct n; [discriminate|].
  simpl. destruct (loopPath n); discriminate.
Qed.

Lemma loop_subdirs n :
  loadErr loopFS (loopPath n) = None /\
  subdirs loopFS (loopPath n) = [loopPath (S n)].
Proof.
  assert (Hj : Join loopFS [loopPath n; "loop"] = loopPath (S n)).
  { unfold Join. rewrite loopPath_not_empty. reflexivity. }
  assert (Hm : Join loopFS [loopPath n; "loop"; ".ndignore"] =
               (loopPath n ++ "/loop/.ndignore")%string).
  { unfold Join. rewrite loopPath_not_empty. reflexivity. }
  assert (Hs : isSubdir loopFS (loopPath n) (aLink "loop" 1%Z) = true).
  { rewrite isSubdir_policy.
    unfold isCandidate, passesPolicy, hiddenName, hasSkipFile, readable,
      isDirOrSymlinkToDir.
    change (os.IsDir (aLink "loop" 1%Z)) with false.
    change (Z.land (os.Mode (aLink "loop" 1%Z)) os.ModeSymlink =? 0)%Z with false.
    cbv iota. rewrite val_bind.
    change (os.Name (aLink "loop" 1%Z)) with "loop".
    change (SkipScanFile loopFS) with ".ndignore".
    rewrite Hj, Hm.
    change (val (os_Stat loopFS ?p)) with (Stat loopFS p).
    change (Stat loopFS) with
      (fun p => if hasSuffix "/.ndignore" p
                then @inr os.FileInfo error ENOENT else inl (aDir "music" 1%Z)).
    cbv beta. rewrite loopPath_not_skip_file.
    rewrite (hasSuffix_app "/.ndignore" (loopPath n) "/loop/.ndignore" eq_refl).
    reflexivity. }
  assert (Hl : val (loadDir loopFS Background (loopPath n)) =
               ([loopPath (S n)],
                counted loopFS (filter (isLeaf loopFS (loopPath n)) [aLink "loop" 1%Z])
                  (set_ModTime 1%Z zeroStats), None)).
  { rewrite val_loadDir.
    change (Stat loopFS (loopPath n)) with
      (if hasSuffix "/.ndignore" (loopPath n)
       then @inr os.FileInfo error ENOENT else inl (aDir "music" 1%Z)).
    rewrite loopPath_not_skip_file. cbv zeta.
    change (ReadDir loopFS (loopPath n)) with
      (@inl (list os.FileInfo) error [aLink "loop" 1%Z]).
    cbv iota. cbn [filter map]. rewrite Hs. cbn [map].
    change (os.Name (aLink "loop" 1%Z)) with "loop". rewrite Hj. reflexivity. }
  unfold subdirs, loadErr. rewrite Hl. split; reflexivity.
Qed.

(** On the folder that links to itself the walk never returns: whatever the
    fuel, it is used up. *)
Lemma loop_walk_diverges fuel ctx :
  val (walkDirTree loopFS fuel ctx "/music") = OutOfFuel.
Proof.
  destruct (walkDirTree_eq loopFS fuel ctx "/music") as [_ ->].
  change "/music" with (loopPath 0) at 2. generalize 0 as n.
  induction fuel as [|fuel IH]; intros n; [reflexivity|].
  destruct (loop_subdirs n) as [He Hs].
  destruct (walkFolder_cases loopFS fuel ctx "/music" (loopPath n))
    as [[e [He' _]]|[_ [_ Hv]]]; [congruence|].
  rewrite Hv, Hs, walkChildren_cons, val_bind, IH. reflexivity.
Qed.

(** ** The theorems on the music folder *)

Lemma musicRecord_sent :
  In musicRecord (sent (trace (walkDirTree musicFS 3 Background "/music"))).
Proof. vm_compute. right. left. reflexivity. Qed.

Lemma record_modTime_witness :
  In musicRecord (sent (trace (walkDirTree musicFS 3 Background "/music"))) /\
  exists p, reach musicFS "/music" p /\ Path musicRecord = Clean musicFS p /\
    ModTime musicRecord =
      maxTime (rawModTime musicFS p) (map os.ModTime (countedEntries musicFS p)).
Proof.
  split; [exact musicRecord_sent|].
  exact (record_modTime musicFS 3 Background "/music" musicRecord musicRecord_sent).
Defined.

Lemma record_audio_count_witness :
  In musicRecord (sent (trace (walkDirTree musicFS 3 Background "/music"))) /\
  exists p, reach musicFS "/music" p /\ Path musicRecord = Clean musicFS p /\
    AudioFilesCount musicRecord =
      (Z.of_nat (List.length (filter (audioName musicFS) (countedEntries musicFS p)))
         mod uint32_modulus)%Z.
Proof.
  split; [exact musicRecord_sent|].
  destruct (record_audio_count musicFS 3 Background "/music" musicRecord
              musicRecord_sent) as [p [Hp [Hpath [Hc _]]]].
  exists p. repeat split; assumption.
Defined.

Lemma record_modTime_monotone_witness :
  In musicRecord (sent (trace (walkDirTree musicFS 3 Background "/music"))) /\
  exists p, reach musicFS "/music" p /\ Path musicRecord = Clean musicFS p /\
    (rawModTime musicFS p <= ModTime musicRecord)%Z.
Proof.
  split; [exact musicRecord_sent|].
  destruct (record_modTime_monotone musicFS 3 Background "/music" musicRecord
              musicRecord_sent) as [p [Hp [Hpath [Hraw _]]]].
  exists p. repeat split; assumption.
Defined.



Lemma excluded_dir_counted_as_leaf_witness :
  isCandidate musicFS "/music" (aDir "live.mp3" 40%Z) = true /\
  passesPolicy musicFS "/music" (aDir "live.mp3" 40%Z) = false /\
  AudioFilesCount
    (val (countEntry musicFS (aDir "live.mp3" 40%Z) zeroStats)) = 1%Z /\
  val (loadDirEntry musicFS Background "/music" (aDir "live.mp3" 40%Z) ([], zeroStats)) =
    ([], val (countEntry musicFS (aDir "live.mp3" 40%Z) zeroStats)).
Proof.
  assert (Hc : isCandidate musicFS "/music" (aDir "live.mp3" 40%Z) = true)
    by (vm_compute; reflexivity).
  assert (Hp : passesPolicy musicFS "/music" (aDir "live.mp3" 40%Z) = false)
    by (vm_compute; reflexivity).
  destruct (excluded_dir_counted_as_leaf musicFS Background "/music"
              (aDir "live.mp3" 40%Z) [] zeroStats Hc Hp)
    as [Hv [_ [_ [_ [Ha _]]]]].
  split; [exact Hc|]. split; [exact Hp|]. split; [|exact Hv].
  rewrite Ha; vm_compute; reflexivity.
Defined.

Lemma music_a_has_no_subdirs d : ~ desc musicFS "/music/a" d.
Proof.
  intros H. inversion H as [a c Hc|a c d' Hc _]; subst;
    vm_compute in Hc; exact Hc.
Qed.

Lemma music_desc p : desc musicFS "/music" p -> p = "/music/a".
Proof.
  intros H. inversion H as [a c Hc|a c d' Hc Hd]; subst.
  - vm_compute in Hc. destruct Hc as [<-|[]]. reflexivity.
  - vm_compute in Hc. destruct Hc as [<-|[]].
    exfalso. exact (music_a_has_no_subdirs p Hd).
Qed.


(** * Further properties of the walker *)

Section Visits.

Variable env : Env.

Lemma listed_app (t1 t2 : list event) : listed (t1 ++ t2) = listed t1 ++ listed t2.
Proof.
  induction t1 as [|e t1 IH]; simpl; [reflexivity|].
  destruct e; simpl; rewrite IH; reflexivity.
Qed.

Lemma listed_entryTrace tr : entryTrace tr -> listed tr = [].
Proof.
  induction tr as [|e tr IH]; intros H; [reflexivity|].
  assert (He := H e (or_introl eq_refl)).
  destruct e; simpl; try (apply IH; intros x Hx; apply H; right; exact Hx);
    contradiction.
Qed.

Lemma trace_loadDir ctx d :
  trace (loadDir env ctx d) =
    EvStat d ::
    match Stat env d with
    | inr _ => [EvLog (Some ctx) LevelError "Error stating dir"]
    | inl di =>
        EvReadDir d ::
        match ReadDir env d with
        | inr _ => [EvLog (Some ctx) LevelError "Error reading dir"]
        | inl files =>
            trace (loadDirEntries env ctx d files
                     ([], set_ModTime (os.ModTime di) zeroStats))
        end
    end.
Proof.
  unfold loadDir. rewrite trace_bind.
  change (val (os_Stat env d)) with (Stat env d).
  change (trace (os_Stat env d)) with [EvStat d]. simpl app. f_equal.
  destruct (Stat env d) as [di|e]; [|reflexivity].
  cbv zeta. rewrite trace_bind.
  change (val (ioutil_ReadDir env d)) with (ReadDir env d).
  change (trace (ioutil_ReadDir env d)) with [EvReadDir d]. simpl app. f_equal.
  destruct (ReadDir env d) as [files|e]; [|reflexivity].
  rewrite trace_bind, trace_ret, app_nil_r. reflexivity.
Qed.

Lemma listed_loadDir_ok ctx d :
  loadErr env d = None -> listed (trace (loadDir env ctx d)) = [d].
Proof.
  intros H. destruct (loaded_directory env d H) as [di [Hs [_ [Hr _]]]].
  rewrite trace_loadDir, Hs, Hr. simpl. f_equal.
  apply listed_entryTrace, entryTrace_loadDirEntries.
Qed.

Lemma map_flat_map {A B C} (g : B -> C) (f : A -> list B) (l : list A) :
  map g (flat_map f l) = flat_map (fun a => map g (f a)) l.
Proof.
  induction l as [|a l IH]; simpl; [reflexivity|].
  rewrite map_app, IH. reflexivity.
Qed.

Lemma flat_map_agree {A B} (f g : A -> list B) (l : list A) :
  (forall a, In a l -> f a = g a) -> flat_map f l = flat_map g l.
Proof.
  induction l as [|a l IH]; intros H; simpl; [reflexivity|].
  rewrite (H a (or_introl eq_refl)), IH; [reflexivity|].
  intros b Hb. apply H. right. exact Hb.
Qed.

Lemma sent_flat_map (w : string -> M outcome) cs :
  sent (flat_map (fun c => trace (w c)) cs) =
  flat_map (fun c => sent (trace (w c))) cs.
Proof.
  induction cs as [|c cs IH]; simpl; [reflexivity|].
  rewrite sent_app, IH. reflexivity.
Qed.

Lemma listed_flat_map (w : string -> M outcome) cs :
  listed (flat_map (fun c => trace (w c)) cs) =
  flat_map (fun c => listed (trace (w c))) cs.
Proof.
  induction cs as [|c cs IH]; simpl; [reflexivity|].
  rewrite listed_app, IH. reflexivity.
Qed.

Lemma walkFolder_visits fuel ctx root cur :
  val (walkFolder env fuel ctx root cur) = Returned None ->
  sent (trace (walkFolder env fuel ctx root cur)) =
    map (recordOf env) (postorder env fuel cur) /\
  listed (trace (walkFolder env fuel ctx root cur)) = preorder env fuel cur.
Proof.
  revert cur. induction fuel as [|fuel IH]; intros cur H; [discriminate H|].
  destruct (walkFolder_cases env fuel ctx root cur)
    as [[e [He [Ht Hv]]]|[He [Ht Hv]]]; [rewrite Hv in H; discriminate H|].
  assert (HW := H). rewrite Hv in HW.
  destruct (walkChildren_ok _ _ HW) as [Hall Htr].
  rewrite Ht, HW, Htr. split.
  - rewrite !sent_app, (offChannel_sent _ (offChannel_loadDir env ctx cur)).
    rewrite sent_flat_map. simpl. rewrite map_app, map_flat_map. f_equal.
    apply flat_map_agree. intros c Hc. apply (IH c (Hall c Hc)).
  - rewrite !listed_app, (listed_loadDir_ok ctx cur He), listed_flat_map.
    simpl. rewrite app_nil_r. f_equal.
    apply flat_map_agree. intros c Hc. apply (IH c (Hall c Hc)).
Qed.

Lemma listed_walkDirTree fuel ctx root :
  listed (trace (walkDirTree env fuel ctx root)) =
    listed (trace (walkFolder env fuel ctx root root)).
Proof.
  destruct (walkDirTree_eq env fuel ctx root) as [-> _]. rewrite listed_app.
  destruct (val (walkFolder env fuel ctx root root)) as [[e|]|];
    simpl; apply app_nil_r.
Qed.

Lemma length_postorder_preorder fuel d :
  List.length (postorder env fuel d) = List.length (preorder env fuel d).
Proof.
  revert d. induction fuel as [|fuel IH]; intros d; [reflexivity|].
  simpl. rewrite length_app, Nat.add_1_r. f_equal.
  induction (subdirs env d) as [|c cs IHc]; simpl; [reflexivity|].
  rewrite !length_app, IH, IHc. reflexivity.
Qed.

(** X1. A walk that returns [nil] has sent exactly the records of the
    directories under the root, one for each visit, in the order in which
    their walks end (children in listing order, then the directory). *)
Theorem records_in_postorder fuel ctx root :
  val (walkDirTree env fuel ctx root) = Returned None ->
  sent (trace (walkDirTree env fuel ctx root)) =
    map (recordOf env) (postorder env fuel root).
Proof.
  intros H. destruct (walkDirTree_eq env fuel ctx root) as [_ Hv].
  rewrite Hv in H. rewrite sent_walkDirTree.
  apply (walkFolder_visits fuel ctx root root H).
Qed.

(** X2. A walk that returns [nil] lists each directory once per visit, a
    directory before the directories under it, and sends as many records as
    it lists directories. *)
Theorem listings_in_preorder fuel ctx root :
  val (walkDirTree env fuel ctx root) = Returned None ->
  listed (trace (walkDirTree env fuel ctx root)) = preorder env fuel root /\
  List.length (sent (trace (walkDirTree env fuel ctx root))) =
    List.length (listed (trace (walkDirTree env fuel ctx root))).
Proof.
  intros H. destruct (walkDirTree_eq env fuel ctx root) as [_ Hv].
  rewrite Hv in H. rewrite sent_walkDirTree, listed_walkDirTree.
  destruct (walkFolder_visits fuel ctx root root H) as [Hs Hl].
  split; [exact Hl|].
  rewrite Hs, Hl, length_map. apply length_postorder_preorder.
Qed.

End Visits.

Section Failure.

Variable env : Env.

Lemma walkChildren_fail_trace (w : string -> M outcome) cs :
  val (walkChildren w cs) <> Returned None ->
  exists cs1 c,
    In c cs /\
    val (w c) = val (walkChildren w cs) /\
    trace (walkChildren w cs) = flat_map (fun c => trace (w c)) cs1 ++ trace (w c).
Proof.
  induction cs as [|c cs IH]; intros H.
  - exfalso. apply H. reflexivity.
  - rewrite walkChildren_cons, val_bind, trace_bind in *.
    destruct (val (w c)) as [[e|]|] eqn:E.
    + exists [], c. split; [left; reflexivity|]. split; [exact E|].
      rewrite trace_ret, app_nil_r. reflexivity.
    + destruct (IH H) as [cs1 [c' [Hc [Hv Ht]]]].
      exists (c :: cs1), c'. split; [right; exact Hc|]. split; [exact Hv|].
      rewrite Ht. simpl. rewrite app_assoc. reflexivity.
    + exists [], c. split; [left; reflexivity|]. split; [exact E|].
      rewrite trace_ret, app_nil_r. reflexivity.
Qed.

Lemma loadDir_failure ctx d e :
  loadErr env d = Some e -> failureOf env ctx d e (trace (loadDir env ctx d)).
Proof.
  unfold loadErr, failureOf. rewrite val_loadDir, trace_loadDir.
  destruct (Stat env d) as [di|e1]; cbv zeta.
  - destruct (ReadDir env d) as [files|e2]; simpl; [discriminate|].
    intros [= ->]. right. split; [exists di; reflexivity|]. split; reflexivity.
  - simpl. intros [= ->]. left. split; reflexivity.
Qed.

Lemma walkFolder_fail_tail fuel ctx root cur e :
  val (walkFolder env fuel ctx root cur) = Returned (Some e) ->
  exists pre F tl,
    reach env cur F /\ failureOf env ctx F e tl /\
    trace (walkFolder env fuel ctx root cur) = pre ++ tl.
Proof.
  revert cur. induction fuel as [|fuel IH]; intros cur H; [discriminate H|].
  destruct (walkFolder_cases env fuel ctx root cur)
    as [[e' [He [Ht Hv]]]|[He [Ht Hv]]]; rewrite Hv in H.
  - injection H as ->. exists [], cur, (trace (loadDir env ctx cur)).
    split; [left; reflexivity|]. split; [apply loadDir_failure, He | exact Ht].
  - destruct (walkChildren_fail_trace (walkFolder env fuel ctx root) (subdirs env cur))
      as [cs1 [c [Hc [Hvc Htc]]]]; [rewrite H; discriminate|].
    rewrite H in Hvc. destruct (IH c Hvc) as [pre [F [tl [HF [Hfail Htl]]]]].
    exists (trace (loadDir env ctx cur) ++
            flat_map (fun c => trace (walkFolder env fuel ctx root c)) cs1 ++ pre),
      F, tl.
    split; [right; eapply reach_step; eauto|]. split; [exact Hfail|].
    rewrite Ht, H, Htc, Htl, app_nil_r, <- !app_assoc. reflexivity.
Qed.

(** X3. A walk that returns an error stops at the call that failed: the last
    things it did are the stat or the listing that returned this very error,
    the log line for it, the log line of [walkDirTree] and the close of the
    channel.  No file system call and no record comes after the failure. *)
Theorem abort_is_immediate fuel ctx root e :
  val (walkDirTree env fuel ctx root) = Returned (Some e) ->
  exists pre F tl,
    reach env root F /\ failureOf env ctx F e tl /\
    trace (walkDirTree env fuel ctx root) =
      pre ++ tl ++
      [EvLog (Some ctx) LevelError "Error loading directory tree"; EvClose].
Proof.
  intros H. destruct (walkDirTree_eq env fuel ctx root) as [Ht Hv].
  rewrite Hv in H. rewrite Ht, H.
  destruct (walkFolder_fail_tail fuel ctx root root e H)
    as [pre [F [tl [HF [Hfail ->]]]]].
  exists pre, F, tl. split; [exact HF|]. split; [exact Hfail|].
  rewrite <- app_assoc. reflexivity.
Qed.

(** X4. [isDirOrSymlinkToDir] answers [true] exactly for a directory and for
    a link whose target is a directory; it fails exactly for a link whose
    target cannot be statted, with the error of the stat; and it asks the
    operating system only about links. *)
Theorem isDirOrSymlinkToDir_spec dir f :
  let isLink := negb (os.IsDir f) &&
                negb (Z.land (os.Mode f) os.ModeSymlink =? 0)%Z in
  (val (isDirOrSymlinkToDir env dir f) = (true, None) <->
     os.IsDir f = true \/
     (isLink = true /\
      exists di, Stat env (Join env [dir; os.Name f]) = inl di /\
                 os.IsDir di = true)) /\
  (forall e, snd (val (isDirOrSymlinkToDir env dir f)) = Some e <->
     isLink = true /\ Stat env (Join env [dir; os.Name f]) = inr e) /\
  trace (isDirOrSymlinkToDir env dir f) =
    (if isLink then [EvStat (Join env [dir; os.Name f])] else []).
Proof.
  cbv zeta. unfold isDirOrSymlinkToDir.
  destruct (os.IsDir f) eqn:Ed; simpl negb; simpl andb.
  - split; [|split; [|reflexivity]].
    + split; [intros _; left; reflexivity | reflexivity].
    + intros e. split; [discriminate | intros [H _]; discriminate H].
  - destruct (Z.land (os.Mode f) os.ModeSymlink =? 0)%Z; simpl negb.
    + split; [|split; [|reflexivity]].
      * split; [discriminate | intros [H|[H _]]; discriminate H].
      * intros e. split; [discriminate | intros [H _]; discriminate H].
    + rewrite val_bind, trace_bind.
      change (val (os_Stat env ?p)) with (Stat env p).
      change (trace (os_Stat env ?p)) with [EvStat p].
      destruct (Stat env (Join env [dir; os.Name f])) as [di|e1].
      * split; [|split; [|reflexivity]].
        -- rewrite val_ret. split.
           ++ intros [= H]. right. split; [reflexivity|]. exists di. split; [reflexivity|exact H].
           ++ intros [H|[_ [di' [[= <-] H]]]]; [discriminate H|]. rewrite H. reflexivity.
        -- intros e. rewrite val_ret. simpl.
           split; [discriminate | intros [_ H]; discriminate H].
      * split; [|split; [|reflexivity]].
        -- rewrite val_ret. split; [discriminate|].
           intros [H|[_ [di [H _]]]]; discriminate H.
        -- intros e. rewrite val_ret. simpl. split.
           ++ intros [= ->]. split; reflexivity.
           ++ intros [_ [= ->]]. reflexivity.
Qed.

End Failure.

Section ListingOrder.

Variable env : Env.

Lemma Permutation_filter_keep {A} (p : A -> bool) (l l' : list A) :
  Permutation l l' -> Permutation (filter p l) (filter p l').
Proof.
  intros H. induction H as [|x l l' _ IH|x y l|l l' l'' _ IH1 _ IH2]; simpl.
  - constructor.
  - destruct (p x); [constructor|]; exact IH.
  - destruct (p x), (p y); try reflexivity. constructor.
  - etransitivity; eassumption.
Qed.

Lemma countEntry_swap f g st :
  val (countEntry env g (val (countEntry env f st))) =
  val (countEntry env f (val (countEntry env g st))).
Proof.
  rewrite !val_countEntry. cbv zeta. destruct st as [p t hi hp n].
  destruct (audioName env f), (audioName env g); simpl; f_equal;
    try lia; rewrite <- !orb_assoc; f_equal; apply orb_comm.
Qed.

Lemma counted_Permutation l l' st :
  Permutation l l' -> counted env l st = counted env l' st.
Proof.
  intros H. revert st. unfold counted.
  induction H as [|x l l' _ IH|x y l|l l' l'' _ IH1 _ IH2]; intros st; simpl.
  - reflexivity.
  - apply IH.
  - rewrite countEntry_swap. reflexivity.
  - rewrite IH1. apply IH2.
Qed.

Variable dir : string.
Variables files files' : list os.FileInfo.
Hypothesis listing : ReadDir env dir = inl files.
Hypothesis permuted : Permutation files files'.

Lemma loadDir_permuted p :
  loadErr (withListing env dir files') p = loadErr env p /\
  recordOf (withListing env dir files') p = recordOf env p /\
  Permutation (subdirs (withListing env dir files') p) (subdirs env p).
Proof.
  unfold loadErr, recordOf, subdirs, loadErr. rewrite !val_loadDir.
  change (Stat (withListing env dir files') p) with (Stat env p).
  change (Clean (withListing env dir files')) with (Clean env).
  destruct (Stat env p) as [di|e]; [|repeat split; reflexivity]. cbv zeta.
  change (ReadDir (withListing env dir files') p) with
    (if String.eqb p dir then inl files' else ReadDir env p).
  change (isSubdir (withListing env dir files')) with (isSubdir env).
  change (isLeaf (withListing env dir files')) with (isLeaf env).
  change (Join (withListing env dir files')) with (Join env).
  change (counted (withListing env dir files')) with (counted env).
  destruct (String.eqb_spec p dir) as [->|Hne].
  - rewrite listing. simpl fst. simpl snd.
    split; [reflexivity|]. split.
    + f_equal. symmetry. apply counted_Permutation, Permutation_filter_keep, permuted.
    + apply Permutation_map, Permutation_filter_keep. symmetry. exact permuted.
  - destruct (ReadDir env p); repeat split; reflexivity.
Qed.

Lemma walkChildren_all_ok (w : string -> M outcome) cs :
  (forall c, In c cs -> val (w c) = Returned None) ->
  val (walkChildren w cs) = Returned None.
Proof.
  induction cs as [|c cs IH]; intros H; [reflexivity|].
  rewrite walkChildren_cons, val_bind, (H c (or_introl eq_refl)).
  apply IH. intros c' Hc'. apply H. right. exact Hc'.
Qed.

Lemma Permutation_flat_map_pointwise {A B} (f g : A -> list B) (l l' : list A) :
  Permutation l l' ->
  (forall a, In a l -> Permutation (f a) (g a)) ->
  Permutation (flat_map f l) (flat_map g l').
Proof.
  intros Hp Hfg. transitivity (flat_map g l).
  - clear Hp. induction l as [|a l IH]; simpl; [constructor|].
    apply Permutation_app.
    + apply Hfg. left. reflexivity.
    + apply IH. intros b Hb. apply Hfg. right. exact Hb.
  - apply Permutation_flat_map. exact Hp.
Qed.

Lemma walkFolder_permuted fuel ctx root cur :
  val (walkFolder env fuel ctx root cur) = Returned None ->
  val (walkFolder (withListing env dir files') fuel ctx root cur) = Returned None /\
  Permutation
    (sent (trace (walkFolder (withListing env dir files') fuel ctx root cur)))
    (sent (trace (walkFolder env fuel ctx root cur))).
Proof.
  revert cur. induction fuel as [|fuel IH]; intros cur H; [discriminate H|].
  destruct (loadDir_permuted cur) as [Herr [Hrec Hsub]].
  destruct (walkFolder_cases env fuel ctx root cur)
    as [[e [He [Ht Hv]]]|[He [Ht Hv]]]; [rewrite Hv in H; discriminate H|].
  destruct (walkFolder_cases (withListing env dir files') fuel ctx root cur)
    as [[e' [He' [Ht' Hv']]]|[He' [Ht' Hv']]]; [congruence|].
  assert (HW := H). rewrite Hv in HW.
  destruct (walkChildren_ok _ _ HW) as [Hall Htr].
  assert (HW' : val (walkChildren (walkFolder (withListing env dir files') fuel ctx root)
                       (subdirs (withListing env dir files') cur)) = Returned None).
  { apply walkChildren_all_ok. intros c Hc.
    apply (IH c). apply Hall. eapply Permutation_in; eauto. }
  destruct (walkChildren_ok _ _ HW') as [_ Htr'].
  split; [rewrite Hv'; exact HW'|].
  rewrite Ht, Ht', HW, HW', Htr, Htr', !sent_app.
  rewrite !(offChannel_sent _ (offChannel_loadDir _ ctx cur)).
  rewrite !sent_flat_map, Hrec. simpl app.
  apply Permutation_app; [|reflexivity].
  apply Permutation_flat_map_pointwise; [exact Hsub|].
  intros c Hc. apply (IH c). apply Hall. eapply Permutation_in; eauto.
Qed.

(** X5. The record of a directory does not depend on the order in which its
    entries are listed: with the listing of [dir] permuted, every directory
    loads with the same error or none, gets the same record, and has the same
    children, in the permuted order. *)
Theorem record_independent_of_listing_order p :
  loadErr (withListing env dir files') p = loadErr env p /\
  recordOf (withListing env dir files') p = recordOf env p /\
  Permutation (subdirs (withListing env dir files') p) (subdirs env p).
Proof. apply loadDir_permuted. Qed.

(** X6. A walk that returns [nil] still does so when the listing of a
    directory is permuted, and sends the same records, in a possibly
    different order. *)
Theorem walk_independent_of_listing_order fuel ctx root :
  val (walkDirTree env fuel ctx root) = Returned None ->
  val (walkDirTree (withListing env dir files') fuel ctx root) = Returned None /\
  Permutation
    (sent (trace (walkDirTree (withListing env dir files') fuel ctx root)))
    (sent (trace (walkDirTree env fuel ctx root))).
Proof.
  intros H. destruct (walkDirTree_eq env fuel ctx root) as [_ Hv].
  destruct (walkDirTree_eq (withListing env dir files') fuel ctx root) as [_ Hv'].
  rewrite Hv in H. rewrite Hv', !sent_walkDirTree.
  apply walkFolder_permuted, H.
Qed.

End ListingOrder.

Section Counts.

Variable env : Env.

(** X7. The audio count of every record sent lies in the range of a
    [uint32] and is at most the number of entries of the directory; unless
    the directory has [2^32] counted entries or more, it is exactly the
    number of counted entries with an audio name. *)
Theorem audio_count_bounds fuel ctx root s :
  In s (sent (trace (walkDirTree env fuel ctx root))) ->
  exists p, reach env root p /\ Path s = Clean env p /\
    (0 <= AudioFilesCount s < uint32_modulus)%Z /\
    (AudioFilesCount s <= Z.of_nat (List.length (entriesOf env p)))%Z /\
    ((Z.of_nat (List.length (countedEntries env p)) < uint32_modulus)%Z ->
     AudioFilesCount s =
       Z.of_nat (List.length (filter (audioName env) (countedEntries env p)))).
Proof.
  intros H. destruct (emitted_record env fuel ctx root s H) as [p [Hp [He ->]]].
  exists p. split; [exact Hp|]. split; [reflexivity|].
  destruct (loaded_directory env p He) as [di [_ [_ [_ [-> _]]]]].
  simpl AudioFilesCount. rewrite counted_AudioFilesCount by (simpl; split; [lia|reflexivity]).
  simpl AudioFilesCount. rewrite Z.add_0_l.
  pose proof (filter_length_le (audioName env) (countedEntries env p)) as H1.
  pose proof (filter_length_le (isCounted env p) (entriesOf env p)) as H2.
  fold (countedEntries env p) in H2.
  assert (Hm : (0 < uint32_modulus)%Z) by reflexivity.
  pose proof (Z.mod_pos_bound
                (Z.of_nat (List.length (filter (audioName env) (countedEntries env p))))
                uint32_modulus Hm) as Hb.
  pose proof (Z.mod_le
                (Z.of_nat (List.length (filter (audioName env) (countedEntries env p))))
                uint32_modulus (Nat2Z.is_nonneg _) Hm) as Hle.
  split; [exact Hb|]. split; [lia|].
  intros Hsmall. apply Z.mod_small. lia.
Qed.

End Counts.

(** * The version string *)

Lemma substring_all (s : string) : substring 0 (String.length s) s = s.
Proof. induction s as [|c s IH]; simpl; [reflexivity | rewrite IH; reflexivity]. Qed.

Lemma TrimPrefix_v (s : string) :
  consts.TrimPrefix s "v" =
    match s with
    | String c s' => if Ascii.eqb "v" c then s' else s
    | EmptyString => EmptyString
    end.
Proof.
  unfold consts.TrimPrefix. destruct s as [|c s]; [reflexivity|].
  cbn [String.prefix]. destruct (ascii_dec "v" c) as [<-|Hne].
  - assert (Hp : String.prefix "" s = true) by (destruct s; reflexivity).
    rewrite Hp. cbn. rewrite Nat.sub_0_r. apply substring_all.
  - destruct (Ascii.eqb_spec "v" c) as [E|_]; [contradiction|].
    reflexivity.
Qed.

Lemma length_append_string (a b : string) :
  String.length (a ++ b) = String.length a + String.length b.
Proof. induction a as [|c a IH]; simpl; [reflexivity | rewrite IH; reflexivity]. Qed.

Lemma append_cancel_r (a b r : string) : (a ++ r)%string = (b ++ r)%string -> a = b.
Proof.
  revert b. induction a as [|c a IH]; intros [|d b] H; simpl in H.
  - reflexivity.
  - exfalso. apply (f_equal String.length) in H. simpl in H.
    rewrite length_append_string in H. lia.
  - exfalso. apply (f_equal String.length) in H. simpl in H.
    rewrite length_append_string in H. lia.
  - injection H as -> H. f_equal. apply IH, H.
Qed.

Lemma Version_not_dev (tag sha : string) : consts.Sprintf_tag_sha tag sha <> "dev".
Proof.
  unfold consts.Sprintf_tag_sha. intros H.
  assert (Hl := f_equal String.length H).
  rewrite !length_append_string in Hl. simpl in Hl.
  destruct tag; [|simpl in Hl; lia]. destruct sha; [|simpl in Hl; lia].
  discriminate H.
Qed.

(** X8. [Version] returns ["dev"] exactly when [gitSha] is empty, and then
    leaves the variables as they are; it never changes [gitSha], and the tag
    it leaves is the tag it printed. *)
Theorem Version_dev (g : consts.globals) :
  (fst (consts.Version g) = "dev" <-> consts.gitSha g = "") /\
  (consts.gitSha g = "" -> snd (consts.Version g) = g) /\
  consts.gitSha (snd (consts.Version g)) = consts.gitSha g /\
  (consts.gitSha g <> "" ->
   fst (consts.Version g) =
     consts.Sprintf_tag_sha (consts.gitTag (snd (consts.Version g))) (consts.gitSha g)).
Proof.
  unfold consts.Version.
  destruct (String.eqb_spec (consts.gitSha g) "") as [E|Hne]; simpl.
  - repeat split; try reflexivity; try (intros _; exact E). intros H. contradiction.
  - repeat split; try reflexivity.
    + intros H. exfalso. exact (Version_not_dev _ _ H).
    + intros H. contradiction.
    + intros H. contradiction.
Qed.

Lemma calls_spec n g :
  consts.gitSha g <> "" ->
  consts.calls n g =
    (map (fun k => consts.Sprintf_tag_sha
                     (Nat.iter (S k) consts.stripV (consts.gitTag g))
                     (consts.gitSha g))
         (seq 0 n),
     consts.mkGlobals
       (Nat.iter n consts.stripV (consts.gitTag g))
       (consts.gitSha g)).
Proof.
  revert g. induction n as [|n IH]; intros [tag sha] Hne; [reflexivity|].
  cbn [consts.calls]. unfold consts.Version. simpl consts.gitSha in *. simpl consts.gitTag.
  destruct (String.eqb_spec sha "") as [E|_]; [contradiction|]. cbv zeta.
  rewrite (IH (consts.mkGlobals (consts.TrimPrefix tag "v") sha) Hne).
  simpl consts.gitTag. simpl consts.gitSha.
  change (consts.TrimPrefix tag "v") with (consts.stripV tag).
  f_equal.
  - cbn [seq map]. f_equal.
    rewrite <- seq_shift, map_map. apply map_ext. intros k.
    f_equal. rewrite <- !Nat.iter_succ_r. reflexivity.
  - f_equal. rewrite <- Nat.iter_succ_r. reflexivity.
Qed.

(** X9. Each call of [Version] with a non-empty [gitSha] takes one more
    leading ["v"] off [gitTag]: the [k]-th call in a row prints the tag less
    its first [k] such letters (as many as it has).  So a second call prints
    the same string as the first exactly when the tag does not begin with
    ["vv"]. *)
Theorem Version_strips_one_v_per_call (g : consts.globals) :
  consts.gitSha g <> "" ->
  (forall n,
     fst (consts.calls n g) =
       map (fun k => consts.Sprintf_tag_sha
                       (Nat.iter (S k) consts.stripV (consts.gitTag g))
                       (consts.gitSha g))
           (seq 0 n)) /\
  (fst (consts.Version (snd (consts.Version g))) = fst (consts.Version g) <->
   String.prefix "vv" (consts.gitTag g) = false).
Proof.
  intros Hne. split; [intros n; rewrite (calls_spec n g Hne); reflexivity|].
  destruct g as [tag sha]. unfold consts.Version. simpl consts.gitSha in *.
  simpl consts.gitTag.
  destruct (String.eqb_spec sha "") as [E|_]; [contradiction|]. cbv zeta.
  simpl consts.gitSha. simpl consts.gitTag.
  destruct (String.eqb_spec sha "") as [E|_]; [contradiction|]. simpl fst.
  unfold consts.Sprintf_tag_sha. rewrite !TrimPrefix_v.
  destruct tag as [|c tag]; [split; reflexivity|].
  cbn [String.prefix].
  destruct (Ascii.eqb_spec "v" c) as [<-|Hc].
  - destruct (ascii_dec "v" "v") as [_|F]; [|contradiction].
    destruct tag as [|d tag]; [split; reflexivity|].
    cbn [String.prefix].
    destruct (Ascii.eqb_spec "v" d) as [<-|Hd].
    + destruct (ascii_dec "v" "v") as [_|F]; [|contradiction].
      split; [|destruct tag; discriminate].
      intros H. exfalso. apply append_cancel_r in H.
      apply (f_equal String.length) in H. simpl in H. lia.
    + destruct (ascii_dec "v" d) as [F|_]; [contradiction|].
      split; reflexivity.
  - destruct (ascii_dec "v" c) as [F|_]; [contradiction|].
    destruct (Ascii.eqb_spec "v" c) as [F|_]; [contradiction|].
    split; reflexivity.
Qed.

(** * Full-text keys *)

Section StringOrder.

Import utils.

Lemma leString_refl a : leString a a = true.
Proof.
  induction a as [|x a IH]; simpl; [reflexivity|].
  rewrite Z.eqb_refl, IH. apply orb_true_r.
Qed.

Lemma leString_total a b : leString a b = true \/ leString b a = true.
Proof.
  revert b. induction a as [|x a IH]; intros [|y b]; simpl; auto.
  destruct (Z.ltb_spec x y); [left; reflexivity|].
  destruct (Z.ltb_spec y x); [right; reflexivity|].
  assert (x = y) by lia. subst y. rewrite Z.eqb_refl. simpl. apply IH.
Qed.

Lemma leString_antisym a b : leString a b = true -> leString b a = true -> a = b.
Proof.
  revert b. induction a as [|x a IH]; intros [|y b]; simpl; try discriminate;
    [reflexivity|].
  intros H1 H2. apply orb_prop in H1, H2.
  destruct H1 as [H1|H1], H2 as [H2|H2];
    try apply Z.ltb_lt in H1; try apply Z.ltb_lt in H2;
    try (apply andb_prop in H1; destruct H1 as [E1 L1]; apply Z.eqb_eq in E1);
    try (apply andb_prop in H2; destruct H2 as [E2 L2]; apply Z.eqb_eq in E2);
    try lia.
  subst y. f_equal. apply IH; assumption.
Qed.

Lemma leString_trans a b c :
  leString a b = true -> leString b c = true -> leString a c = true.
Proof.
  revert b c. induction a as [|x a IH]; intros [|y b] [|z c]; simpl;
    try discriminate; try reflexivity.
  intros H1 H2. apply orb_prop in H1, H2. apply orb_true_iff.
  destruct H1 as [H1|H1], H2 as [H2|H2];
    try apply Z.ltb_lt in H1; try apply Z.ltb_lt in H2;
    try (apply andb_prop in H1; destruct H1 as [E1 L1]; apply Z.eqb_eq in E1);
    try (apply andb_prop in H2; destruct H2 as [E2 L2]; apply Z.eqb_eq in E2).
  - left. apply Z.ltb_lt. lia.
  - left. apply Z.ltb_lt. lia.
  - left. apply Z.ltb_lt. lia.
  - right. apply andb_true_intro. split; [apply Z.eqb_eq; lia|].
    eapply IH; eassumption.
Qed.

Lemma insertSorted_perm w ws : Permutation (insertSorted w ws) (w :: ws).
Proof.
  induction ws as [|v ws IH]; simpl; [reflexivity|].
  destruct (leString w v); [reflexivity|].
  rewrite IH. apply perm_swap.
Qed.

Lemma sortStrings_perm ws : Permutation (sortStrings ws) ws.
Proof.
  induction ws as [|w ws IH]; simpl; [constructor|].
  rewrite insertSorted_perm, IH. reflexivity.
Qed.

Lemma insertSorted_ascending w ws : ascending ws -> ascending (insertSorted w ws).
Proof.
  unfold ascending. induction ws as [|v ws IH]; intros H; simpl.
  - constructor; constructor.
  - apply StronglySorted_inv in H. destruct H as [Hs Hall].
    destruct (leString w v) eqn:E.
    + constructor; [constructor; assumption|].
      constructor; [exact E|].
      eapply Forall_impl; [|exact Hall].
      intros u Hu. eapply leString_trans; eassumption.
    + constructor; [apply IH, Hs|].
      assert (Hvw : leString v w = true).
      { destruct (leString_total w v) as [F|F]; [congruence | exact F]. }
      rewrite insertSorted_perm. constructor; assumption.
Qed.

Lemma sortStrings_ascending ws : ascending (sortStrings ws).
Proof.
  induction ws as [|w ws IH]; simpl; [constructor|].
  apply insertSorted_ascending, IH.
Qed.

Lemma ascending_unique l l' :
  ascending l -> ascending l' -> Permutation l l' -> l = l'.
Proof.
  unfold ascending. revert l'. induction l as [|a l IH]; intros l' Hl Hl' Hp.
  - apply Permutation_nil in Hp. congruence.
  - destruct l' as [|b l'];
      [apply Permutation_sym, Permutation_nil in Hp; discriminate Hp|].
    apply StronglySorted_inv in Hl. destruct Hl as [Hs Ha].
    apply StronglySorted_inv in Hl'. destruct Hl' as [Hs' Hb].
    assert (E : a = b).
    { assert (Hin : In a (b :: l')) by (eapply Permutation_in; [exact Hp | left; reflexivity]).
      assert (Hin' : In b (a :: l))
        by (eapply Permutation_in; [symmetry; exact Hp | left; reflexivity]).
      destruct Hin as [->|Hin]; [reflexivity|].
      destruct Hin' as [->|Hin']; [reflexivity|].
      rewrite Forall_forall in Ha, Hb.
      apply leString_antisym; [apply Ha, Hin' | apply Hb, Hin]. }
    subst b. f_equal. apply IH; try assumption.
    eapply Permutation_cons_inv; exact Hp.
Qed.

Lemma sortStrings_Permutation l l' :
  Permutation l l' -> sortStrings l = sortStrings l'.
Proof.
  intros H. apply ascending_unique; try apply sortStrings_ascending.
  rewrite !sortStrings_perm. exact H.
Qed.

End StringOrder.

Section FieldsFacts.

Import utils.

Lemma consWord_app w ws ws' : consWord w (ws ++ ws') = consWord w ws ++ ws'.
Proof. destruct w; reflexivity. Qed.

Lemma split_app_space a sp b :
  IsSpace sp = true ->
  split (a ++ sp :: b) = (fst (split a), snd (split a) ++ Fields b).
Proof.
  intros Hsp. induction a as [|r a IH]; simpl.
  - rewrite Hsp. unfold Fields. destruct (split b). reflexivity.
  - rewrite IH. destruct (split a) as [w ws]. simpl.
    destruct (IsSpace r); [rewrite consWord_app|]; reflexivity.
Qed.

Lemma Fields_app_space a sp b :
  IsSpace sp = true -> Fields (a ++ sp :: b) = Fields a ++ Fields b.
Proof.
  intros Hsp. unfold Fields at 1. rewrite (split_app_space a sp b Hsp).
  simpl. rewrite consWord_app. reflexivity.
Qed.

Lemma Fields_space sp s : IsSpace sp = true -> Fields (sp :: s) = Fields s.
Proof.
  intros Hsp. unfold Fields. simpl. destruct (split s) as [w ws].
  rewrite Hsp. reflexivity.
Qed.

Lemma Fields_trimLeft s : Fields (trimLeft s) = Fields s.
Proof.
  induction s as [|r s IH]; [reflexivity|]. simpl.
  destruct (IsSpace r) eqn:E; [|reflexivity].
  rewrite IH. symmetry. apply Fields_space, E.
Qed.

Lemma split_trimRight s : split (trimRight s) = split s.
Proof.
  induction s as [|r s IH]; [reflexivity|]. simpl.
  destruct (trimRight s) as [|t ts] eqn:E.
  - simpl in IH. rewrite <- IH.
    destruct (IsSpace r) eqn:Er; simpl; [reflexivity|]. rewrite Er. reflexivity.
  - change (split (r :: t :: ts)) with
      (let '(w, ws) := split (t :: ts) in
       if IsSpace r then ([], consWord w ws) else (r :: w, ws)).
    rewrite IH. reflexivity.
Qed.

Lemma Fields_TrimSpace s : Fields (TrimSpace s) = Fields s.
Proof.
  unfold TrimSpace, Fields at 1. rewrite split_trimRight.
  apply Fields_trimLeft.
Qed.

Lemma split_words s :
  (forall r, In r (fst (split s)) -> IsSpace r = false) /\
  Forall isWord (snd (split s)).
Proof.
  induction s as [|r s [IH1 IH2]]; simpl.
  - split; [intros r [] | constructor].
  - destruct (split s) as [w ws]. simpl in *.
    destruct (IsSpace r) eqn:E; simpl.
    + split; [intros x []|].
      destruct w as [|c w]; simpl; [exact IH2|].
      constructor; [|exact IH2]. split; [discriminate | exact IH1].
    + split; [|exact IH2]. intros x [<-|Hx]; [exact E | apply IH1, Hx].
Qed.

Lemma Fields_words s : Forall isWord (Fields s).
Proof.
  unfold Fields. destruct (split_words s) as [H1 H2].
  destruct (fst (split s)) as [|c w] eqn:E; simpl; [exact H2|].
  constructor; [|exact H2]. split; [discriminate | exact H1].
Qed.

Lemma split_word w : isWord w -> split w = (w, []).
Proof.
  intros [_ H]. induction w as [|r w IH]; [reflexivity|].
  simpl. rewrite IH by (intros x Hx; apply H; right; exact Hx).
  rewrite (H r (or_introl eq_refl)). reflexivity.
Qed.

Lemma Fields_word w : isWord w -> Fields w = [w].
Proof.
  intros H. unfold Fields. rewrite (split_word w H).
  destruct H as [Hne _]. destruct w; [contradiction | reflexivity].
Qed.

Lemma Fields_Join ws : Forall isWord ws -> Fields (Join ws) = ws.
Proof.
  induction ws as [|w ws IH]; intros H; [reflexivity|].
  apply Forall_cons_iff in H. destruct H as [Hw Hws].
  destruct ws as [|v ws].
  - simpl. apply (Fields_word w Hw).
  - change (Join (w :: v :: ws)) with (w ++ 32%Z :: Join (v :: ws)).
    rewrite Fields_app_space by reflexivity.
    rewrite (Fields_word w Hw), (IH Hws). reflexivity.
Qed.

Lemma Join_nil_iff ws : Forall isWord ws -> (Join ws = [] <-> ws = []).
Proof.
  intros H. split; [|intros ->; reflexivity].
  destruct ws as [|w ws]; [reflexivity|]. intros E.
  apply Forall_cons_iff in H. destruct H as [[Hne _] _].
  destruct ws as [|v ws]; simpl in E; [contradiction|].
  destruct w; [contradiction | discriminate E].
Qed.

End FieldsFacts.

Section Sanitize.

Import utils.

Variable ToLower : string -> list rune.
Variable Accents : list rune -> list rune.

Lemma Fields_sanitizedText text :
  Fields (sanitizedText ToLower Accents text) =
    flat_map (fun txt => Fields (Accents (ToLower txt))) text.
Proof.
  induction text as [|t text IH]; [reflexivity|].
  unfold sanitizedText in *. cbn [flat_map].
  rewrite <- app_assoc. cbn [app].
  rewrite Fields_app_space by reflexivity.
  rewrite Fields_TrimSpace, IH. reflexivity.
Qed.

Lemma In_words text w :
  In w (words ToLower Accents text) <->
  exists txt, In txt text /\ In w (Fields (Accents (ToLower txt))).
Proof.
  unfold words. rewrite nodup_In, Fields_sanitizedText, in_flat_map. reflexivity.
Qed.

Lemma words_are_words text : Forall isWord (words ToLower Accents text).
Proof.
  apply Forall_forall. intros w Hw. unfold words in Hw. apply nodup_In in Hw.
  pose proof (Fields_words (sanitizedText ToLower Accents text)) as H.
  rewrite Forall_forall in H. apply H, Hw.
Qed.

Lemma fullText_Permutation ks ks' :
  Permutation ks ks' -> fullText ks = fullText ks'.
Proof.
  intros H. unfold fullText. apply sortStrings_Permutation.
  apply Permutation_filter_keep, Permutation_map, H.
Qed.

Lemma fullText_perm ks :
  Permutation (fullText ks) (filter nonEmpty (map stripQuotes ks)).
Proof. apply sortStrings_perm. Qed.

Lemma In_fullText ks v :
  In v (fullText ks) <-> v <> [] /\ exists w, In w ks /\ stripQuotes w = v.
Proof.
  split.
  - intros H. apply (Permutation_in _ (fullText_perm ks)) in H.
    apply filter_In in H. destruct H as [H Hne].
    apply in_map_iff in H. destruct H as [w [<- Hw]].
    split; [destruct (stripQuotes w); [discriminate Hne | discriminate]|].
    exists w. split; [exact Hw | reflexivity].
  - intros [Hne [w [Hw <-]]].
    apply (Permutation_in _ (Permutation_sym (fullText_perm ks))).
    apply filter_In. split; [apply in_map, Hw|].
    destruct (stripQuotes w); [contradiction | reflexivity].
Qed.

Lemma fullText_words ks :
  Forall isWord ks ->
  Forall (fun v => isWord v /\ forall r, In r v -> isQuote r = false) (fullText ks).
Proof.
  intros H. rewrite Forall_forall in *. intros v Hv.
  apply In_fullText in Hv. destruct Hv as [Hne [w [Hw <-]]].
  split; [split; [exact Hne|]|].
  - intros r Hr. unfold stripQuotes in Hr. apply filter_In in Hr.
    apply (H w Hw), Hr.
  - intros r Hr. unfold stripQuotes in Hr. apply filter_In in Hr.
    destruct Hr as [_ Hr]. apply negb_true_iff in Hr. exact Hr.
Qed.

(** X10. The result does not depend on the order in which the [range] over
    the map yields the words: whatever enumeration of the distinct fields
    the second loop goes through, it builds the same string. *)
Theorem range_order_irrelevant text ks :
  NoDup ks ->
  (forall w, In w ks <-> In w (Fields (sanitizedText ToLower Accents text))) ->
  SanitizeStringsIn ks = SanitizeStrings ToLower Accents text.
Proof.
  intros Hnd Hin. unfold SanitizeStrings, SanitizeStringsIn. f_equal.
  apply fullText_Permutation. apply NoDup_Permutation; [exact Hnd | apply NoDup_nodup|].
  intros w. unfold words. rewrite nodup_In. apply Hin.
Qed.

(** X11. The result is its words joined by single spaces: splitting it at
    spaces gives them back.  They are in ascending order, none is empty or
    holds a space or a character of the quotes class, and they are the fields
    of the lowered, unaccented texts, each different field taken once, with
    the quotes taken out and the fields that had nothing else dropped. *)
Theorem SanitizeStrings_words text :
  Fields (SanitizeStrings ToLower Accents text) =
    fullText (words ToLower Accents text) /\
  ascending (fullText (words ToLower Accents text)) /\
  Forall (fun v => isWord v /\ forall r, In r v -> isQuote r = false)
    (fullText (words ToLower Accents text)) /\
  forall v, In v (fullText (words ToLower Accents text)) <->
    v <> [] /\
    exists txt w, In txt text /\ In w (Fields (Accents (ToLower txt))) /\
                  stripQuotes w = v.
Proof.
  pose proof (fullText_words _ (words_are_words text)) as Hw.
  split; [|split; [|split; [exact Hw|]]].
  - unfold SanitizeStrings, SanitizeStringsIn. apply Fields_Join.
    eapply Forall_impl; [|exact Hw]. intros v [H _]. exact H.
  - apply sortStrings_ascending.
  - intros v. rewrite In_fullText. split.
    + intros [Hne [w [Hin Hs]]]. split; [exact Hne|].
      apply In_words in Hin. destruct Hin as [txt [Ht Hf]].
      exists txt, w. repeat split; assumption.
    + intros [Hne [txt [w [Ht [Hf Hs]]]]]. split; [exact Hne|].
      exists w. split; [|exact Hs]. apply In_words. exists txt. split; assumption.
Qed.

(** X12. Only the set of the arguments counts: their order, and giving one
    of them more than once, change nothing. *)
Theorem SanitizeStrings_set text text' :
  (forall txt, In txt text <-> In txt text') ->
  SanitizeStrings ToLower Accents text = SanitizeStrings ToLower Accents text'.
Proof.
  intros H. unfold SanitizeStrings, SanitizeStringsIn. f_equal.
  apply fullText_Permutation.
  apply NoDup_Permutation; try apply NoDup_nodup.
  intros w. rewrite !In_words. split; intros [txt [Ht Hf]]; exists txt;
    (split; [apply H, Ht | exact Hf]).
Qed.

(** X13. The result is the empty string exactly when every field of the
    texts is made of characters of the quotes class only: in particular for
    no text at all, and for texts of spaces. *)
Theorem SanitizeStrings_empty text :
  SanitizeStrings ToLower Accents text = [] <->
  forall txt w, In txt text -> In w (Fields (Accents (ToLower txt))) ->
    stripQuotes w = [].
Proof.
  pose proof (fullText_words _ (words_are_words text)) as Hw.
  assert (Hwords : Forall isWord (fullText (words ToLower Accents text))).
  { eapply Forall_impl; [|exact Hw]. intros v [H _]. exact H. }
  unfold SanitizeStrings, SanitizeStringsIn. rewrite (Join_nil_iff _ Hwords).
  split.
  - intros E txt w Ht Hf.
    destruct (stripQuotes w) as [|r v] eqn:Es; [reflexivity|]. exfalso.
    assert (Hin : In (r :: v) (fullText (words ToLower Accents text))).
    { apply In_fullText. split; [discriminate|]. exists w. split; [|exact Es].
      apply In_words. exists txt. split; assumption. }
    rewrite E in Hin. destruct Hin.
  - intros H. destruct (fullText (words ToLower Accents text)) as [|v vs] eqn:E;
      [reflexivity|]. exfalso.
    assert (Hin : In v (fullText (words ToLower Accents text)))
      by (rewrite E; left; reflexivity).
    apply In_fullText in Hin. destruct Hin as [Hne [w [Hin Hs]]].
    apply In_words in Hin. destruct Hin as [txt [Ht Hf]].
    apply Hne. rewrite <- Hs. apply (H txt w Ht Hf).
Qed.

Lemma count_occ_stripped ks v :
  v <> [] ->
  count_occ rune_list_eq_dec (filter nonEmpty (map stripQuotes ks)) v =
  List.length (filter (fun w => if rune_list_eq_dec (stripQuotes w) v then true else false) ks).
Proof.
  intros Hne. induction ks as [|w ks IH]; [reflexivity|].
  cbn [map filter].
  destruct (rune_list_eq_dec (stripQuotes w) v) as [E|Hd].
  - rewrite E. destruct v as [|r v]; [contradiction|].
    cbn [nonEmpty]. rewrite count_occ_cons_eq by reflexivity.
    cbn [List.length]. f_equal. exact IH.
  - destruct (nonEmpty (stripQuotes w)).
    + rewrite count_occ_cons_neq by exact Hd. exact IH.
    + exact IH.
Qed.

(** X14. A word stands in the result as many times as there are different
    fields that become this word when the quotes are taken out: the map
    makes the fields distinct, not the words of the result. *)
Theorem SanitizeStrings_repeats text v :
  v <> [] ->
  count_occ rune_list_eq_dec (Fields (SanitizeStrings ToLower Accents text)) v =
  List.length
    (filter (fun w => if rune_list_eq_dec (stripQuotes w) v then true else false)
       (words ToLower Accents text)).
Proof.
  intros Hne.
  assert (Hf : Fields (SanitizeStrings ToLower Accents text) =
               fullText (words ToLower Accents text)).
  { unfold SanitizeStrings, SanitizeStringsIn. apply Fields_Join.
    pose proof (fullText_words _ (words_are_words text)) as Hw.
    eapply Forall_impl; [|exact Hw]. intros u [H _]. exact H. }
  rewrite Hf, <- (count_occ_stripped _ v Hne).
  apply (proj1 (Permutation_count_occ rune_list_eq_dec _ _)).
  apply fullText_perm.
Qed.

End Sanitize.

(** ** The further properties on the examples *)

Lemma records_in_postorder_witness :
  val (walkDirTree musicFS 3 Background "/music") = Returned None /\
  sent (trace (walkDirTree musicFS 3 Background "/music")) =
    map (recordOf musicFS) (postorder musicFS 3 "/music").
Proof.
  assert (H : val (walkDirTree musicFS 3 Background "/music") = Returned None)
    by (vm_compute; reflexivity).
  split; [exact H|].
  exact (records_in_postorder musicFS 3 Background "/music" H).
Defined.

Lemma listings_in_preorder_witness :
  val (walkDirTree musicFS 3 Background "/music") = Returned None /\
  listed (trace (walkDirTree musicFS 3 Background "/music")) =
    preorder musicFS 3 "/music".
Proof.
  assert (H : val (walkDirTree musicFS 3 Background "/music") = Returned None)
    by (vm_compute; reflexivity).
  split; [exact H|].
  exact (proj1 (listings_in_preorder musicFS 3 Background "/music" H)).
Defined.

Lemma abort_is_immediate_witness :
  val (walkDirTree failFS 3 Background "/music") = Returned (Some EIO) /\
  exists pre F tl,
    reach failFS "/music" F /\ failureOf failFS Background F EIO tl /\
    trace (walkDirTree failFS 3 Background "/music") =
      pre ++ tl ++
      [EvLog (Some Background) LevelError "Error loading directory tree"; EvClose].
Proof.
  assert (H : val (walkDirTree failFS 3 Background "/music") = Returned (Some EIO))
    by (vm_compute; reflexivity).
  split; [exact H|].
  exact (abort_is_immediate failFS 3 Background "/music" EIO H).
Defined.

Lemma record_independent_of_listing_order_witness :
  ReadDir musicFS "/music" = inl (entriesOf musicFS "/music") /\
  Permutation (entriesOf musicFS "/music") (rev (entriesOf musicFS "/music")) /\
  recordOf (withListing musicFS "/music" (rev (entriesOf musicFS "/music"))) "/music" =
    recordOf musicFS "/music".
Proof.
  assert (Hl : ReadDir musicFS "/music" = inl (entriesOf musicFS "/music"))
    by (vm_compute; reflexivity).
  assert (Hp : Permutation (entriesOf musicFS "/music")
                 (rev (entriesOf musicFS "/music")))
    by apply Permutation_rev.
  split; [exact Hl|]. split; [exact Hp|].
  exact (proj1 (proj2 (record_independent_of_listing_order musicFS "/music"
                         _ _ Hl Hp "/music"))).
Defined.

Lemma walk_independent_of_listing_order_witness :
  ReadDir musicFS "/music" = inl (entriesOf musicFS "/music") /\
  Permutation (entriesOf musicFS "/music") (rev (entriesOf musicFS "/music")) /\
  val (walkDirTree musicFS 3 Background "/music") = Returned None /\
  val (walkDirTree (withListing musicFS "/music" (rev (entriesOf musicFS "/music")))
         3 Background "/music") = Returned None.
Proof.
  assert (Hl : ReadDir musicFS "/music" = inl (entriesOf musicFS "/music"))
    by (vm_compute; reflexivity).
  assert (Hp : Permutation (entriesOf musicFS "/music")
                 (rev (entriesOf musicFS "/music")))
    by apply Permutation_rev.
  assert (H : val (walkDirTree musicFS 3 Background "/music") = Returned None)
    by (vm_compute; reflexivity).
  split; [exact Hl|]. split; [exact Hp|]. split; [exact H|].
  exact (proj1 (walk_independent_of_listing_order musicFS "/music" _ _ Hl Hp
                  3 Background "/music" H)).
Defined.

Lemma audio_count_bounds_witness :
  In musicRecord (sent (trace (walkDirTree musicFS 3 Background "/music"))) /\
  exists p, reach musicFS "/music" p /\ Path musicRecord = Clean musicFS p /\
    (0 <= AudioFilesCount musicRecord < uint32_modulus)%Z.
Proof.
  split; [exact musicRecord_sent|].
  destruct (audio_count_bounds musicFS 3 Background "/music" musicRecord
              musicRecord_sent) as [p [Hp [Hpath [Hb _]]]].
  exists p. repeat split; try assumption; apply Hb.
Defined.

Lemma Version_strips_one_v_per_call_witness :
  consts.gitSha (consts.mkGlobals "vv1.0" "abc") <> "" /\
  fst (consts.calls 3 (consts.mkGlobals "vv1.0" "abc")) =
    ["v1.0 (abc)"; "1.0 (abc)"; "1.0 (abc)"]%string.
Proof.
  assert (H : consts.gitSha (consts.mkGlobals "vv1.0" "abc") <> "")
    by discriminate.
  split; [exact H|].
  rewrite (proj1 (Version_strips_one_v_per_call _ H) 3). vm_compute. reflexivity.
Defined.

Lemma range_order_irrelevant_witness :
  NoDup [[97]; [98]]%Z /\
  utils.SanitizeStringsIn [[97]; [98]]%Z =
    utils.SanitizeStrings utils.ToLowerASCII (fun w => w) ["b a"%string].
Proof.
  assert (Hnd : NoDup [[97]; [98]]%Z).
  { constructor; [intros [E|[]]; discriminate E|].
    constructor; [intros []|constructor]. }
  split; [exact Hnd|].
  apply (range_order_irrelevant utils.ToLowerASCII (fun w => w) ["b a"%string] _ Hnd).
  intros w. vm_compute. tauto.
Defined.

Lemma SanitizeStrings_set_witness :
  (forall txt, In txt ["b a"; "a"]%string <-> In txt ["a"; "b a"; "a"]%string) /\
  utils.SanitizeStrings utils.ToLowerASCII (fun w => w) ["b a"; "a"]%string =
  utils.SanitizeStrings utils.ToLowerASCII (fun w => w) ["a"; "b a"; "a"]%string.
Proof.
  assert (H : forall txt, In txt ["b a"; "a"]%string <-> In txt ["a"; "b a"; "a"]%string)
    by (intros txt; simpl; tauto).
  split; [exact H|].
  exact (SanitizeStrings_set utils.ToLowerASCII (fun w => w) _ _ H).
Defined.

Lemma SanitizeStrings_repeats_witness :
  [97%Z] <> [] /\
  count_occ utils.rune_list_eq_dec
    (utils.Fields (utils.SanitizeStrings utils.ToLowerASCII (fun w => w) ["(a) a"%string]))
    [97%Z] = 2.
Proof.
  assert (H : [97%Z] <> []) by discriminate.
  split; [exact H|].
  rewrite (SanitizeStrings_repeats utils.ToLowerASCII (fun w => w) ["(a) a"%string] _ H).
  vm_compute. reflexivity.
Defined.

Section Outcome.

Variable env : Env.

(** X15. A walk that returns, returns [nil] exactly when every directory
    under the root can be statted and listed. *)
Theorem walk_ok_iff_all_load fuel ctx root r :
  val (walkDirTree env fuel ctx root) = Returned r ->
  (r = None <-> forall p, reach env root p -> loadErr env p = None).
Proof.
  intros H. destruct (walkDirTree_eq env fuel ctx root) as [_ Hv].
  rewrite Hv in H. split.
  - intros -> p Hp. apply (completed_all env fuel ctx root root H p Hp).
  - intros Hall. destruct r as [e|]; [|reflexivity]. exfalso.
    destruct (error_origin env fuel ctx root root e H) as [F [HF He]].
    rewrite (Hall F HF) in He. discriminate He.
Qed.

End Outcome.

Lemma walk_ok_iff_all_load_witness :
  val (walkDirTree failFS 3 Background "/music") = Returned (Some EIO) /\
  ~ (forall p, reach failFS "/music" p -> loadErr failFS p = None).
Proof.
  assert (H : val (walkDirTree failFS 3 Background "/music") = Returned (Some EIO))
    by (vm_compute; reflexivity).
  split; [exact H|]. intros Hall.
  apply (walk_ok_iff_all_load failFS 3 Background "/music" _ H) in Hall.
  discriminate Hall.
Defined.
